(** * GimpDial: the angle engine, the hit test and the background pass

    A shallow embedding of [app/widgets/gimpdial.c].

    Numbers.  [gdouble] values are read as real numbers: the development
    is about the geometry the code computes, not about the rounding of
    doubles.  The one place where the source narrows a [gdouble] to a
    [gfloat] (the locals [motion_angle] and [delta] of the motion
    handler) is kept visible as the function [to_gfloat], which the
    theorems leave arbitrary unless they say otherwise; the conversion C
    makes there, rounding to the nearest binary32 number, is
    [to_binary32].  [gint] values are integers; the widths, heights and
    border widths a widget sees are far from the ends of the [gint]
    range, so no wrap-around is written.

    Toolkit.  [atan2] and [sqrt] are the mathematical functions.  A call
    [g_object_set (dial, "alpha", v, NULL)] is read as the call of
    [gimp_dial_set_property] it dispatches to; redraw requests and the
    pointer grab of the toolkit leave no trace other than [has_grab]. *)

From Stdlib Require Import Reals Lra Lia ZArith List Bool.
Import ListNotations.

Open Scope R_scope.

(** ** Macros and constants *)

Notation "'G_PI'" := PI (only parsing).

Definition REL : R := 8 / 10.
Definition DEL : R := 1 / 10.
Definition TICK : Z := 10.
Definition EACH_OR_BOTH : R := 3 / 10.

(** [#define MIN(a, b) (((a) < (b)) ? (a) : (b))] on doubles and on ints. *)
Definition MIN (a b : R) : R := if Rlt_dec a b then a else b.
Definition MINi (a b : Z) : Z := if (a <? b)%Z then a else b.

(** [#define SQR(x) ((x) * (x))] *)
Definition SQR (x : R) : R := x * x.

(** C comparisons of doubles, as truth values. *)
Definition Rltb (a b : R) : bool := if Rlt_dec a b then true else false.
Definition Rgtb (a b : R) : bool := Rltb b a.

(** ** Data *)

Inductive DialTarget : Set :=
| DIAL_TARGET_ALPHA
| DIAL_TARGET_BETA
| DIAL_TARGET_BOTH.

Record GimpDialPrivate : Type := mkPriv
  { alpha        : R;
    beta         : R;
    clockwise    : bool;
    target       : DialTarget;
    press_angle  : R;
    border_width : Z;
    has_grab     : bool;
    press_state  : Z }.

Record GtkAllocation : Type := mkAlloc
  { alloc_x : Z; alloc_y : Z; width : Z; height : Z }.

(** The widget: what [gtk_widget_get_allocation] returns and [dial->priv]. *)
Record GimpDial : Type := mkDial
  { allocation : GtkAllocation;
    priv       : GimpDialPrivate }.

Inductive GdkEventType : Set :=
| GDK_BUTTON_PRESS
| GDK_2BUTTON_PRESS
| GDK_3BUTTON_PRESS
| GDK_BUTTON_RELEASE.

Record GdkEventButton : Type := mkButton
  { b_type : GdkEventType;
    b_x : R; b_y : R;
    b_state : Z;
    b_button : Z }.

Record GdkEventMotion : Type := mkMotion
  { m_x : R; m_y : R; m_state : Z }.

(** A property id together with the value carried by its [GValue]. *)
Inductive Property : Type :=
| PROP_BORDER_WIDTH (v : Z)
| PROP_ALPHA (v : R)
| PROP_BETA (v : R)
| PROP_CLOCKWISE (v : bool).

(** Field updates of [dial->priv]. *)
Definition set_alpha (p : GimpDialPrivate) (v : R) :=
  mkPriv v (beta p) (clockwise p) (target p) (press_angle p)
         (border_width p) (has_grab p) (press_state p).
Definition set_beta (p : GimpDialPrivate) (v : R) :=
  mkPriv (alpha p) v (clockwise p) (target p) (press_angle p)
         (border_width p) (has_grab p) (press_state p).
Definition set_clockwise (p : GimpDialPrivate) (v : bool) :=
  mkPriv (alpha p) (beta p) v (target p) (press_angle p)
         (border_width p) (has_grab p) (press_state p).
Definition set_target (p : GimpDialPrivate) (v : DialTarget) :=
  mkPriv (alpha p) (beta p) (clockwise p) v (press_angle p)
         (border_width p) (has_grab p) (press_state p).
Definition set_press_angle (p : GimpDialPrivate) (v : R) :=
  mkPriv (alpha p) (beta p) (clockwise p) (target p) v
         (border_width p) (has_grab p) (press_state p).
Definition set_border_width (p : GimpDialPrivate) (v : Z) :=
  mkPriv (alpha p) (beta p) (clockwise p) (target p) (press_angle p)
         v (has_grab p) (press_state p).
Definition set_has_grab (p : GimpDialPrivate) (v : bool) :=
  mkPriv (alpha p) (beta p) (clockwise p) (target p) (press_angle p)
         (border_width p) v (press_state p).
Definition set_press_state (p : GimpDialPrivate) (v : Z) :=
  mkPriv (alpha p) (beta p) (clockwise p) (target p) (press_angle p)
         (border_width p) (has_grab p) v.

Definition with_priv (d : GimpDial) (p : GimpDialPrivate) : GimpDial :=
  mkDial (allocation d) p.

(** ** Properties *)

Definition gimp_dial_set_property (p : GimpDialPrivate) (prop : Property)
  : GimpDialPrivate :=
  match prop with
  | PROP_BORDER_WIDTH v => set_border_width p v
  | PROP_ALPHA v        => set_alpha p v
  | PROP_BETA v         => set_beta p v
  | PROP_CLOCKWISE v    => set_clockwise p v
  end.

(** The bounds [g_param_spec_double] declares for "alpha" and "beta". *)
Definition in_property_range (v : R) : Prop := 0 <= v <= 2 * G_PI.

(** The range the specification calls normalized. *)
Definition normalized (v : R) : Prop := 0 <= v < 2 * G_PI.

(** ** The angle engine *)

Definition angle_mod_2PI (angle : R) : R :=
  if Rlt_dec angle 0 then angle + 2 * G_PI
  else if Rgt_dec angle (2 * G_PI) then angle - 2 * G_PI
  else angle.

(** The four-quadrant arctangent of the C library, on real arguments. *)
Definition atan2 (y x : R) : R :=
  if Rlt_dec 0 x then atan (y / x)
  else if Rlt_dec x 0 then
         if Rle_dec 0 y then atan (y / x) + PI else atan (y / x) - PI
  else if Rlt_dec 0 y then PI / 2
  else if Rlt_dec y 0 then - (PI / 2)
  else 0.

Definition arctg (y x : R) : R :=
  let temp := atan2 y x in
  if Rlt_dec temp 0 then temp + 2 * G_PI else temp.

Definition min_prox (alpha beta angle : R) : R :=
  let temp1 := MIN (angle_mod_2PI (alpha - angle))
                   (2 * G_PI - angle_mod_2PI (alpha - angle)) in
  let temp2 := MIN (angle_mod_2PI (beta - angle))
                   (2 * G_PI - angle_mod_2PI (beta - angle)) in
  MIN temp1 temp2.

Definition closest (alpha beta angle : R) : DialTarget :=
  let temp_alpha := MIN (angle_mod_2PI (alpha - angle))
                        (2 * G_PI - angle_mod_2PI (alpha - angle)) in
  let temp_beta  := MIN (angle_mod_2PI (beta - angle))
                        (2 * G_PI - angle_mod_2PI (beta - angle)) in
  if Rlt_dec (temp_alpha - temp_beta) 0
  then DIAL_TARGET_ALPHA
  else DIAL_TARGET_BETA.

(** The expression both [min_prox] and [closest] write out twice: the
    smaller of the two ways round from [b] to [a]. *)
Definition angular_distance (a b : R) : R :=
  MIN (angle_mod_2PI (a - b)) (2 * G_PI - angle_mod_2PI (a - b)).

(** The angle of the handle a target names. *)
Definition handle_angle (t : DialTarget) (alpha beta : R) : R :=
  match t with
  | DIAL_TARGET_ALPHA => alpha
  | _ => beta
  end.

(** ** Event handlers *)

Definition event_is_button_press (t : GdkEventType) : bool :=
  match t with GDK_BUTTON_PRESS => true | _ => false end.

(** Geometry of a pointer position, as both handlers compute it. *)
Definition dial_size (d : GimpDial) : Z :=
  (MINi (width (allocation d)) (height (allocation d))
   - 2 * border_width (priv d))%Z.
Definition center_x (d : GimpDial) : R := IZR (width (allocation d)) / 2.
Definition center_y (d : GimpDial) : R := IZR (height (allocation d)) / 2.
Definition pointer_angle (d : GimpDial) (x y : R) : R :=
  angle_mod_2PI (arctg (center_y d - y) (x - center_x d)).
Definition pointer_distance (d : GimpDial) (x y : R) : R :=
  sqrt (SQR (y - center_y d) + SQR (x - center_x d)).

Section Handlers.

(** [gdk_event_triggers_context_menu], decided by the toolkit. *)
Variable gdk_event_triggers_context_menu : GdkEventButton -> bool.

(** Narrowing of a [gdouble] to a [gfloat]. *)
Variable to_gfloat : R -> R.

Definition gimp_dial_button_press_event
           (widget : GimpDial) (bevent : GdkEventButton) : GimpDial :=
  let p := priv widget in
  if event_is_button_press (b_type bevent) then
    if gdk_event_triggers_context_menu bevent then
      with_priv widget (set_press_state p 0)
    else if (b_button bevent =? 1)%Z then
      let size := dial_size widget in
      let p := set_has_grab p true in
      let p := set_press_state p (b_state bevent) in
      let press_angle := pointer_angle widget (b_x bevent) (b_y bevent) in
      let p := set_press_angle p press_angle in
      if Rgtb (pointer_distance widget (b_x bevent) (b_y bevent))
              (IZR size / 2 * EACH_OR_BOTH)
         && Rltb (min_prox (alpha p) (beta p) press_angle) (G_PI / 12)
      then
        let p := set_target p (closest (alpha p) (beta p) press_angle) in
        match target p with
        | DIAL_TARGET_ALPHA =>
            with_priv widget (gimp_dial_set_property p (PROP_ALPHA press_angle))
        | _ =>
            with_priv widget (gimp_dial_set_property p (PROP_BETA press_angle))
        end
      else
        with_priv widget (set_target p DIAL_TARGET_BOTH)
    else widget
  else widget.

Definition gimp_dial_button_release_event
           (widget : GimpDial) (bevent : GdkEventButton) : GimpDial :=
  if (b_button bevent =? 1)%Z
  then with_priv widget (set_has_grab (priv widget) false)
  else widget.

Definition gimp_dial_motion_notify_event
           (widget : GimpDial) (mevent : GdkEventMotion) : GimpDial :=
  let p := priv widget in
  let motion_angle :=
    to_gfloat (pointer_angle widget (m_x mevent) (m_y mevent)) in
  let delta := to_gfloat (motion_angle - press_angle p) in
  let p := set_press_angle p motion_angle in
  if Req_dec_T delta 0 then with_priv widget p
  else
    match target p with
    | DIAL_TARGET_ALPHA =>
        with_priv widget (gimp_dial_set_property p (PROP_ALPHA motion_angle))
    | DIAL_TARGET_BETA =>
        with_priv widget (gimp_dial_set_property p (PROP_BETA motion_angle))
    | DIAL_TARGET_BOTH =>
        let a := angle_mod_2PI (alpha p + delta) in
        let b := angle_mod_2PI (beta p + delta) in
        with_priv widget
          (gimp_dial_set_property
             (gimp_dial_set_property p (PROP_ALPHA a)) (PROP_BETA b))
    end.

End Handlers.

(** ** The background pass *)

(** One ARGB32 pixel of the image surface, as the four [guchar] arguments
    of [GIMP_CAIRO_ARGB32_SET_PIXEL]. *)
Record Pixel : Type := mkPixel
  { px_r : Z; px_g : Z; px_b : Z; px_a : Z }.

(** The bytes of the surface, addressed by the offset of a pixel from
    [data]; a fresh image surface is cleared. *)
Definition SurfaceData : Type := Z -> Pixel.

Definition cleared : SurfaceData := fun _ => mkPixel 0 0 0 0.

(** [GIMP_CAIRO_ARGB32_SET_PIXEL (data + off, r, g, b, a)]: the pixel at
    [off] becomes the colour given. *)
Definition GIMP_CAIRO_ARGB32_SET_PIXEL
           (data : SurfaceData) (off : Z) (r g b a : Z) : SurfaceData :=
  fun o => if (o =? off)%Z then mkPixel r g b a else data o.

(** A [GimpDialBGFunc] takes an angle and a distance and fills [rgb]:
    its result here is the three bytes it leaves there. *)
Definition GimpDialBGFunc : Type := R -> R -> Z * Z * Z.

(** The values [0, 1, ..., n-1] of a [for] loop counter. *)
Definition counter (n : Z) : list Z := map Z.of_nat (seq 0 (Z.to_nat n)).

Section Background.

(** [gimp_hsv_to_rgb4] of libgimpcolor: hue, saturation and value to
    three bytes. *)
Variable gimp_hsv_to_rgb4 : R -> R -> R -> Z * Z * Z.

Definition gimp_dial_background_func_hsv : GimpDialBGFunc :=
  fun angle distance =>
    let v := 1 - sqrt distance / 4 in
    gimp_hsv_to_rgb4 angle distance v.

(** The body of the inner loop, for column [i] of row [j]. *)
Definition background_pixel
           (size stride : Z) (bg_func : GimpDialBGFunc)
           (j : Z) (data : SurfaceData) (i : Z) : SurfaceData :=
  let distance :=
    sqrt ((SQR (IZR i - IZR size / 2) + SQR (IZR j - IZR size / 2))
          / SQR (IZR size / 2)) in
  let angle :=
    arctg (IZR size / 2 - IZR j) (IZR i - IZR size / 2) / (2 * G_PI) in
  let '(r, g, b) := bg_func angle (MIN 1 distance) in
  GIMP_CAIRO_ARGB32_SET_PIXEL data (j * stride + i * 4)%Z r g b 255.

Definition background_row
           (size stride : Z) (bg_func : GimpDialBGFunc)
           (data : SurfaceData) (j : Z) : SurfaceData :=
  fold_left (background_pixel size stride bg_func j) (counter size) data.

(** The surface [gimp_dial_draw_background] fills before painting it;
    [stride] is what [cairo_image_surface_get_stride] answers. *)
Definition gimp_dial_draw_background
           (size stride : Z) (bg_func : GimpDialBGFunc) : SurfaceData :=
  fold_left (background_row size stride bg_func) (counter size) cleared.

End Background.

(** ** States and events the handlers meet *)

(** ** Narrowing to [gfloat]

    The conversion of a [gdouble] to a [gfloat] rounds to the nearest
    binary32 number, a tie going to the one with an even last bit.  On
    reals: the last place of a number of the size of [x] has exponent
    (floor of log2 |x|) - 23, and not less than -149; [x] is rounded to
    the nearest multiple of 2 to that exponent.  (Overflow to infinity,
    beyond 2^128, has no counterpart here; the handlers narrow angles
    and differences of angles only.) *)

Definition round_nearest_even (r : R) : Z :=
  let f := Int_part r in
  let rest := r - IZR f in
  if Rlt_dec rest (1 / 2) then f
  else if Rlt_dec (1 / 2) rest then (f + 1)%Z
  else if Z.even f then f else (f + 1)%Z.

Definition binary32_ulp_exponent (x : R) : Z :=
  Z.max (Int_part (ln (Rabs x) / ln 2) - 23) (-149).

Definition to_binary32 (x : R) : R :=
  let e := binary32_ulp_exponent x in
  IZR (round_nearest_even (x * powerRZ 2 (- e))) * powerRZ 2 e.

Definition binary32_full_turn : R := 13176795 / 2097152.

(** A narrowing under which no angle from 0 to [F] and no difference
    from [-F] to [F] leaves that range.  Rounding to nearest is of this
    kind for every [F] that is itself a [gfloat]. *)
Definition gfloat_keeps_within (fl : R -> R) (F : R) : Prop :=
  (forall x, 0 <= x <= F -> 0 <= fl x <= F)
  /\ (forall x, - F <= x <= F -> - F <= fl x <= F).


(** No press asks for the context menu. *)
Definition no_context_menu : GdkEventButton -> bool := fun _ => false.

(** A dial as construction leaves it (alpha = 0, beta = PI, not
    clockwise, the rest cleared), given a border width and a size. *)
Definition new_dial (w h bw : Z) : GimpDial :=
  mkDial (mkAlloc 0 0 w h)
         (mkPriv 0 PI false DIAL_TARGET_ALPHA 0 bw false 0).

Definition primary_press (x y : R) : GdkEventButton :=
  mkButton GDK_BUTTON_PRESS x y 0 1.

Definition motion_to (x y : R) : GdkEventMotion := mkMotion x y 0.

(** A new 100 x 100 dial after a press that grabbed both handles at
    angle 0. *)
Definition dial_grabbed_both : GimpDial :=
  mkDial (mkAlloc 0 0 100 100)
         (mkPriv 0 PI false DIAL_TARGET_BOTH 0 0 true 0).

(** The byte offset of pixel [i] of row [j], and the pixel one run of
    the loop body leaves there. *)
Definition pixel_offset (stride j i : Z) : Z := (j * stride + i * 4)%Z.

Definition written_pixel (size stride : Z) (bg_func : GimpDialBGFunc)
           (j i : Z) : Pixel :=
  background_pixel size stride bg_func j cleared i (pixel_offset stride j i).

(** A colour function to run the background pass with: black, whatever
    the hue, the saturation and the value. *)
Definition always_black : R -> R -> R -> Z * Z * Z :=
  fun _ _ _ => (0, 0, 0)%Z.

(** ** The rest of the widget *)

(** The ids of the four properties, without a value. *)
Inductive PropertyId : Set :=
| ID_BORDER_WIDTH
| ID_ALPHA
| ID_BETA
| ID_CLOCKWISE.

Definition property_id (prop : Property) : PropertyId :=
  match prop with
  | PROP_BORDER_WIDTH _ => ID_BORDER_WIDTH
  | PROP_ALPHA _        => ID_ALPHA
  | PROP_BETA _         => ID_BETA
  | PROP_CLOCKWISE _    => ID_CLOCKWISE
  end.

(** [gimp_dial_get_property]: what it stores in the [GValue]. *)
Definition gimp_dial_get_property (p : GimpDialPrivate) (id : PropertyId)
  : Property :=
  match id with
  | ID_BORDER_WIDTH => PROP_BORDER_WIDTH (border_width p)
  | ID_ALPHA        => PROP_ALPHA (alpha p)
  | ID_BETA         => PROP_BETA (beta p)
  | ID_CLOCKWISE    => PROP_CLOCKWISE (clockwise p)
  end.

(** [gimp_dial_size_request]: the width and the height it asks for. *)
Definition gimp_dial_size_request (d : GimpDial) : Z * Z :=
  ((2 * border_width (priv d) + 96)%Z, (2 * border_width (priv d) + 96)%Z).

(** [gimp_dial_size_allocate], as far as the dial itself goes: the
    allocation is stored. *)
Definition gimp_dial_size_allocate (d : GimpDial) (a : GtkAllocation)
  : GimpDial :=
  mkDial a (priv d).

Definition gimp_dial_unmap (d : GimpDial) : GimpDial :=
  if has_grab (priv d)
  then with_priv d (set_has_grab (priv d) false)
  else d.

(** What [gimp_dial_expose_event] hands to the two drawing functions:
    the origin it translates to and the size it passes on. *)
Record Exposed : Type := mkExposed
  { translate_x : Z; translate_y : Z; drawn_size : Z }.

Definition gimp_dial_expose_event (drawable : bool) (d : GimpDial)
  : option Exposed :=
  if drawable then
    let a := allocation d in
    let bw := border_width (priv d) in
    let size := (MINi (width a) (height a) - 2 * bw)%Z in
    let x := Z.quot (width a - 2 * bw - size) 2 in
    let y := Z.quot (height a - 2 * bw - size) 2 in
    Some (mkExposed (alloc_x a + bw + x) (alloc_y a + bw + y) size)
  else None.

(** Conversion of a [double] to a [gint]: the fraction is dropped. *)
Definition double_to_gint (r : R) : Z :=
  if Rle_dec 0 r then Int_part r else (- Int_part (- r))%Z.

(** The cairo calls [gimp_dial_draw_arrows] makes, in order. *)
Inductive CairoOp : Type :=
| cairo_move_to (x y : R)
| cairo_line_to (x y : R)
| cairo_new_sub_path
| cairo_arc (xc yc radius angle1 angle2 : R)
| cairo_arc_negative (xc yc radius angle1 angle2 : R)
| cairo_set_line_width (w : R)
| cairo_set_source_rgba (r g b a : R)
| cairo_stroke_preserve
| cairo_stroke.

Section Arrows.

(** The macro [ROUND] of libgimpmath, from a double to an int. *)
Variable ROUND : R -> Z.

Definition gimp_dial_draw_arrows
           (size : Z) (alpha beta : R) (clockwise : bool) : list CairoOp :=
  let radius := IZR (double_to_gint (IZR size / 2)) in
  let dist := IZR (double_to_gint (radius * EACH_OR_BOTH)) in
  let direction := (if clockwise then -1 else 1)%Z in
  [ cairo_move_to radius radius;
    cairo_line_to (IZR (ROUND (radius + radius * cos alpha)))
                  (IZR (ROUND (radius - radius * sin alpha)));
    cairo_move_to (radius + radius * cos alpha)
                  (radius - radius * sin alpha);
    cairo_line_to (IZR (ROUND (radius + radius * REL * cos (alpha - DEL))))
                  (IZR (ROUND (radius - radius * REL * sin (alpha - DEL))));
    cairo_move_to (radius + radius * cos alpha)
                  (radius - radius * sin alpha);
    cairo_line_to (IZR (ROUND (radius + radius * REL * cos (alpha + DEL))))
                  (IZR (ROUND (radius - radius * REL * sin (alpha + DEL))));
    cairo_move_to radius radius;
    cairo_line_to (IZR (ROUND (radius + radius * cos beta)))
                  (IZR (ROUND (radius - radius * sin beta)));
    cairo_move_to (radius + radius * cos beta)
                  (radius - radius * sin beta);
    cairo_line_to (IZR (ROUND (radius + radius * REL * cos (beta - DEL))))
                  (IZR (ROUND (radius - radius * REL * sin (beta - DEL))));
    cairo_move_to (radius + radius * cos beta)
                  (radius - radius * sin beta);
    cairo_line_to (IZR (ROUND (radius + radius * REL * cos (beta + DEL))))
                  (IZR (ROUND (radius - radius * REL * sin (beta + DEL))));
    cairo_move_to (radius + dist * cos beta)
                  (radius - dist * sin beta);
    cairo_line_to
      (IZR (ROUND (radius + dist * cos beta
                   + IZR (direction * TICK) * sin beta)))
      (IZR (ROUND (radius - dist * sin beta
                   + IZR (direction * TICK) * cos beta)));
    cairo_new_sub_path;
    (if negb clockwise
     then cairo_arc_negative radius radius dist (- alpha) (- beta)
     else cairo_arc radius radius dist (- alpha) (- beta));
    cairo_set_line_width 3;
    cairo_set_source_rgba 1 1 1 (6 / 10);
    cairo_stroke_preserve;
    cairo_set_line_width 1;
    cairo_set_source_rgba 0 0 0 (8 / 10);
    cairo_stroke ].

End Arrows.

(** Rounding to the nearest integer, halves upwards: a [ROUND] to run
    the arrows with. *)
Definition round_half_up (r : R) : Z := Int_part (r + 1 / 2).

(** ** Sequences of events *)

Inductive DialEvent : Type :=
| ButtonPress (bevent : GdkEventButton)
| ButtonRelease (bevent : GdkEventButton)
| MotionNotify (mevent : GdkEventMotion)
| Unmap.

Section Delivery.

Variable gdk_event_triggers_context_menu : GdkEventButton -> bool.
Variable to_gfloat : R -> R.

Definition deliver (d : GimpDial) (e : DialEvent) : GimpDial :=
  match e with
  | ButtonPress bevent =>
      gimp_dial_button_press_event gdk_event_triggers_context_menu d bevent
  | ButtonRelease bevent => gimp_dial_button_release_event d bevent
  | MotionNotify mevent => gimp_dial_motion_notify_event to_gfloat d mevent
  | Unmap => gimp_dial_unmap d
  end.

Definition deliver_all (d : GimpDial) (es : list DialEvent) : GimpDial :=
  fold_left deliver es d.

End Delivery.

(** The events that reach the branch of the press handler for the
    primary button. *)
Definition is_primary_press (trig : GdkEventButton -> bool) (e : DialEvent)
  : bool :=
  match e with
  | ButtonPress bevent =>
      event_is_button_press (b_type bevent)
      && negb (trig bevent)
      && (b_button bevent =? 1)%Z
  | _ => false
  end.



(** ** Facts about the macros *)

Lemma MIN_Rmin (a b : R) : MIN a b = Rmin a b.
Proof.
  unfold MIN, Rmin.
  destruct (Rlt_dec a b), (Rle_dec a b); lra.
Qed.

Lemma Rltb_true (a b : R) : Rltb a b = true <-> a < b.
Proof. unfold Rltb; destruct (Rlt_dec a b); split; intros; try easy. Qed.

Lemma Rltb_false (a b : R) : Rltb a b = false <-> ~ a < b.
Proof. unfold Rltb; destruct (Rlt_dec a b); split; intros; try easy. Qed.

Lemma Rgtb_true (a b : R) : Rgtb a b = true <-> a > b.
Proof. unfold Rgtb; rewrite Rltb_true; unfold Rgt; tauto. Qed.

(** Case analysis on every comparison of doubles in sight, innermost
    first, then linear arithmetic with [PI] as an unknown positive
    number. *)
Ltac plain t :=
  lazymatch t with
  | context [Rlt_dec _ _] => fail
  | context [Rgt_dec _ _] => fail
  | context [Rle_dec _ _] => fail
  | _ => idtac
  end.

Ltac split_comparisons :=
  repeat match goal with
         | |- context [Rlt_dec ?a ?b] =>
             plain a; plain b; destruct (Rlt_dec a b)
         | |- context [Rgt_dec ?a ?b] =>
             plain a; plain b; destruct (Rgt_dec a b)
         | |- context [Rle_dec ?a ?b] =>
             plain a; plain b; destruct (Rle_dec a b)
         end.

Ltac angles :=
  pose proof PI_RGT_0;
  unfold angular_distance, min_prox, closest, MIN, angle_mod_2PI,
    normalized, in_property_range in *;
  split_comparisons; try reflexivity; try lra.

(** ** [angle_mod_2PI] *)

Lemma angle_mod_2PI_fixes (x : R) :
  in_property_range x -> angle_mod_2PI x = x.
Proof. intros Hx; angles. Qed.

Lemma angle_mod_2PI_range (x : R) :
  - (2 * PI) <= x <= 4 * PI -> in_property_range (angle_mod_2PI x).
Proof. intros Hx; angles. Qed.

(** C3, as stated, fails at the input [2PI] (and at [4PI]): it comes back
    as [2PI], which is outside [0, 2PI). *)
Lemma angle_mod_2PI_at_full_turn :
  - (2 * PI) <= 2 * PI <= 4 * PI /\ ~ normalized (angle_mod_2PI (2 * PI)).
Proof. angles. Qed.

(** C3 (amended): on inputs within one turn of the range, i.e. in
    [-2PI, 4PI], [angle_mod_2PI] returns a value in the closed range
    [0, 2PI], the value [2PI] only for the inputs [2PI] and [4PI], and it is
    idempotent. *)
Theorem angle_mod_2PI_within_one_turn (x : R) :
  - (2 * PI) <= x <= 4 * PI ->
  0 <= angle_mod_2PI x <= 2 * PI
  /\ (x <> 2 * PI -> x <> 4 * PI -> angle_mod_2PI x < 2 * PI)
  /\ angle_mod_2PI (angle_mod_2PI x) = angle_mod_2PI x.
Proof.
  intros Hx. repeat split; try (intros; angles).
Qed.

Lemma angle_mod_2PI_within_one_turn_witness :
  0 <= angle_mod_2PI (- PI) <= 2 * PI
  /\ (- PI <> 2 * PI -> - PI <> 4 * PI -> angle_mod_2PI (- PI) < 2 * PI)
  /\ angle_mod_2PI (angle_mod_2PI (- PI)) = angle_mod_2PI (- PI).
Proof.
  apply (angle_mod_2PI_within_one_turn (- PI)).
  pose proof PI_RGT_0; lra.
Defined.

(** ** Angular distance, [min_prox] and [closest] *)

Lemma min_prox_angular_distance (alpha beta angle : R) :
  min_prox alpha beta angle
  = MIN (angular_distance alpha angle) (angular_distance beta angle).
Proof. reflexivity. Qed.

Lemma closest_angular_distance (alpha beta angle : R) :
  closest alpha beta angle
  = if Rlt_dec (angular_distance alpha angle - angular_distance beta angle) 0
    then DIAL_TARGET_ALPHA else DIAL_TARGET_BETA.
Proof. reflexivity. Qed.

Lemma angular_distance_sym (a b : R) :
  in_property_range a -> in_property_range b ->
  angular_distance a b = angular_distance b a.
Proof. intros Ha Hb; angles. Qed.

Lemma angular_distance_range (a b : R) :
  in_property_range a -> in_property_range b ->
  0 <= angular_distance a b <= PI.
Proof. intros Ha Hb; angles. Qed.

Lemma angular_distance_refl (a : R) : angular_distance a a = 0.
Proof.
  unfold angular_distance.
  replace (a - a) with 0 by ring.
  angles.
Qed.

Lemma normalized_in_property_range (a : R) :
  normalized a -> in_property_range a.
Proof. unfold normalized, in_property_range; lra. Qed.

(** C6: on normalized angles the angular distance is symmetric and lies
    in [0, PI]; the distance from an angle to itself is 0. *)
Theorem angular_distance_symmetric_bounded (a b : R) :
  normalized a -> normalized b ->
  angular_distance a b = angular_distance b a
  /\ 0 <= angular_distance a b <= PI
  /\ angular_distance a a = 0.
Proof.
  intros Ha%normalized_in_property_range Hb%normalized_in_property_range.
  split; [ now apply angular_distance_sym | ].
  split; [ now apply angular_distance_range | apply angular_distance_refl ].
Qed.

Lemma angular_distance_symmetric_bounded_witness :
  angular_distance 1 PI = angular_distance PI 1
  /\ 0 <= angular_distance 1 PI <= PI
  /\ angular_distance 1 1 = 0.
Proof.
  apply (angular_distance_symmetric_bounded 1 PI);
    unfold normalized; pose proof PI2_3_2; lra.
Defined.

Lemma closest_is_alpha_iff (alpha beta angle : R) :
  closest alpha beta angle = DIAL_TARGET_ALPHA
  <-> angular_distance alpha angle < angular_distance beta angle.
Proof.
  rewrite closest_angular_distance.
  destruct (Rlt_dec _ _); split; intros H; try easy; lra.
Qed.

Lemma closest_is_beta_iff (alpha beta angle : R) :
  closest alpha beta angle = DIAL_TARGET_BETA
  <-> ~ angular_distance alpha angle < angular_distance beta angle.
Proof.
  rewrite closest_angular_distance.
  destruct (Rlt_dec _ _); split; intros H; try easy; lra.
Qed.

(** C4: [closest] answers ALPHA exactly when alpha is strictly nearer to
    the angle than beta, and BETA otherwise (ties included); so
    closest(0, PI, 0.01) = ALPHA, closest(0, PI, PI - 0.01) = BETA and the
    equidistant closest(0, PI, PI/2) = BETA. *)
Theorem closest_strictly_nearer (alpha beta angle : R) :
  (closest alpha beta angle = DIAL_TARGET_ALPHA
   <-> angular_distance alpha angle < angular_distance beta angle)
  /\ (closest alpha beta angle = DIAL_TARGET_BETA
      <-> ~ angular_distance alpha angle < angular_distance beta angle)
  /\ closest 0 PI (1 / 100) = DIAL_TARGET_ALPHA
  /\ closest 0 PI (PI - 1 / 100) = DIAL_TARGET_BETA
  /\ closest 0 PI (PI / 2) = DIAL_TARGET_BETA.
Proof.
  split; [ apply closest_is_alpha_iff | ].
  split; [ apply closest_is_beta_iff | ].
  pose proof PI2_3_2.
  repeat split; angles.
Qed.

(** C10: the smaller distance [min_prox] reports is the distance of the
    handle [closest] picks. *)
Theorem min_prox_realized_by_closest (alpha beta angle : R) :
  min_prox alpha beta angle
  = angular_distance (handle_angle (closest alpha beta angle) alpha beta)
                     angle.
Proof.
  rewrite min_prox_angular_distance, closest_angular_distance.
  unfold MIN at 1.
  destruct (Rlt_dec (angular_distance alpha angle)
                    (angular_distance beta angle)) as [Hlt | Hge];
    destruct (Rlt_dec _ 0) as [Hd | Hd]; simpl; try reflexivity; lra.
Qed.

(** ** [atan2] and [arctg] *)

Lemma atan_nonpos (t : R) : t <= 0 -> atan t <= 0.
Proof.
  intros [Hlt | ->].
  - left. rewrite <- atan_0. now apply atan_increasing.
  - rewrite atan_0. lra.
Qed.

Lemma atan_pos (t : R) : 0 < t -> 0 < atan t.
Proof. intros Ht. rewrite <- atan_0. now apply atan_increasing. Qed.

Lemma atan2_range (y x : R) : - PI < atan2 y x <= PI.
Proof.
  pose proof PI_RGT_0 as Hpi.
  unfold atan2.
  destruct (Rlt_dec 0 x) as [Hx | Hx].
  - pose proof (atan_bound (y / x)). lra.
  - destruct (Rlt_dec x 0) as [Hx' | Hx'].
    + pose proof (atan_bound (y / x)) as Hb.
      assert (0 < / (- x)) as Hinv by (apply Rinv_0_lt_compat; lra).
      assert (y / x = - (y * / (- x))) as Hq by (field; lra).
      destruct (Rle_dec 0 y) as [Hy | Hy].
      * assert (y / x <= 0) as Hle.
        { rewrite Hq. pose proof (Rmult_le_pos y (/ (- x)) Hy). lra. }
        pose proof (atan_nonpos _ Hle). lra.
      * assert (0 < y / x) as Hlt.
        { rewrite Hq.
          assert (0 < (- y) * / (- x)) by (apply Rmult_lt_0_compat; lra).
          lra. }
        pose proof (atan_pos _ Hlt). lra.
    + destruct (Rlt_dec 0 y); [ lra | ].
      destruct (Rlt_dec y 0); lra.
Qed.

Lemma arctg_normalized (y x : R) : normalized (arctg y x).
Proof.
  pose proof (atan2_range y x) as Hr.
  unfold arctg, normalized.
  destruct (Rlt_dec (atan2 y x) 0); lra.
Qed.

(** C7: [arctg] answers an angle in [0, 2*PI) for every vector (the
    origin included, where [atan2] is 0), with arctg(0,1) = 0,
    arctg(1,0) = PI/2, arctg(0,-1) = PI and arctg(-1,0) = 3*PI/2. *)
Theorem arctg_full_turn (dy dx : R) :
  0 <= arctg dy dx < 2 * PI
  /\ arctg 0 1 = 0
  /\ arctg 1 0 = PI / 2
  /\ arctg 0 (-1) = PI
  /\ arctg (-1) 0 = 3 * PI / 2.
Proof.
  pose proof PI_RGT_0 as Hpi.
  split; [ apply arctg_normalized | ].
  unfold arctg, atan2.
  replace (0 / 1) with 0 by field.
  replace (0 / -1) with 0 by field.
  rewrite atan_0.
  repeat split; split_comparisons; lra.
Qed.

(** ** Pointer geometry at particular places *)

Lemma atan2_east (x : R) : 0 < x -> atan2 0 x = 0.
Proof.
  intros Hx. unfold atan2.
  destruct (Rlt_dec 0 x); [ | lra ].
  unfold Rdiv. rewrite Rmult_0_l. apply atan_0.
Qed.


Lemma atan2_origin : atan2 0 0 = 0.
Proof. unfold atan2. split_comparisons; lra. Qed.

Lemma pointer_angle_normalized (d : GimpDial) (x y : R) :
  normalized (pointer_angle d x y).
Proof.
  unfold pointer_angle.
  pose proof (arctg_normalized (center_y d - y) (x - center_x d)) as Hn.
  rewrite angle_mod_2PI_fixes; [ exact Hn | ].
  now apply normalized_in_property_range.
Qed.

Lemma pointer_angle_east (d : GimpDial) (x : R) :
  center_x d < x -> pointer_angle d x (center_y d) = 0.
Proof.
  intros Hx. unfold pointer_angle, arctg.
  replace (center_y d - center_y d) with 0 by ring.
  rewrite atan2_east by lra. angles.
Qed.


Lemma pointer_angle_center (d : GimpDial) :
  pointer_angle d (center_x d) (center_y d) = 0.
Proof.
  unfold pointer_angle, arctg.
  replace (center_y d - center_y d) with 0 by ring.
  replace (center_x d - center_x d) with 0 by ring.
  rewrite atan2_origin. angles.
Qed.

Lemma pointer_distance_center (d : GimpDial) :
  pointer_distance d (center_x d) (center_y d) = 0.
Proof.
  unfold pointer_distance, SQR.
  replace (_ + _) with 0 by ring.
  apply sqrt_0.
Qed.

Lemma pointer_distance_level (d : GimpDial) (x : R) :
  pointer_distance d x (center_y d) = Rabs (x - center_x d).
Proof.
  unfold pointer_distance, SQR.
  replace (_ + _) with (Rsqr (x - center_x d)) by (unfold Rsqr; ring).
  apply sqrt_Rsqr_abs.
Qed.

(** ** The press handler *)

(** What a primary-button press does, with the bookkeeping of the grab
    and of the modifiers set aside in [p]. *)
Lemma press_primary (trig : GdkEventButton -> bool)
      (d : GimpDial) (ev : GdkEventButton) :
  b_type ev = GDK_BUTTON_PRESS -> trig ev = false -> b_button ev = 1%Z ->
  let pa := pointer_angle d (b_x ev) (b_y ev) in
  let p := set_press_angle
             (set_press_state (set_has_grab (priv d) true) (b_state ev))
             pa in
  gimp_dial_button_press_event trig d ev
  = if Rgtb (pointer_distance d (b_x ev) (b_y ev))
            (IZR (dial_size d) / 2 * EACH_OR_BOTH)
       && Rltb (min_prox (alpha (priv d)) (beta (priv d)) pa) (PI / 12)
    then
      match closest (alpha (priv d)) (beta (priv d)) pa with
      | DIAL_TARGET_ALPHA =>
          with_priv d (set_alpha (set_target p DIAL_TARGET_ALPHA) pa)
      | t => with_priv d (set_beta (set_target p t) pa)
      end
    else with_priv d (set_target p DIAL_TARGET_BOTH).
Proof.
  intros Hty Htrig Hbtn.
  unfold gimp_dial_button_press_event.
  rewrite Hty, Htrig, Hbtn. cbn.
  destruct (_ && _); [ | reflexivity ].
  destruct (closest _ _ _); reflexivity.
Qed.

Lemma closest_not_both (alpha beta angle : R) :
  closest alpha beta angle <> DIAL_TARGET_BOTH.
Proof. unfold closest. destruct (Rlt_dec _ _); discriminate. Qed.

(** A press on the right rim of a new dial, 50 pixels from the centre
    and at angle 0, where alpha is: it grabs alpha. *)
Example press_on_rim_grabs_alpha :
  let p' := priv (gimp_dial_button_press_event
                    no_context_menu (new_dial 100 100 0)
                    (primary_press 100 50)) in
  target p' = DIAL_TARGET_ALPHA /\ alpha p' = 0 /\ beta p' = PI
  /\ press_angle p' = 0 /\ has_grab p' = true.
Proof.
  set (d := new_dial 100 100 0).
  assert (center_x d = 50) as Hcx by (unfold d, center_x; cbn; lra).
  assert (center_y d = 50) as Hcy by (unfold d, center_y; cbn; lra).
  rewrite press_primary by reflexivity.
  cbn [b_x b_y b_state primary_press]. cbv zeta.
  rewrite <- Hcy, pointer_distance_level, pointer_angle_east, Hcx by lra.
  replace (dial_size d) with 100%Z by reflexivity.
  cbn [priv alpha beta d new_dial].
  assert (Rgtb (Rabs (100 - 50)) (100 / 2 * EACH_OR_BOTH) = true) as ->.
  { apply Rgtb_true. unfold EACH_OR_BOTH.
    rewrite Rabs_right by lra. lra. }
  assert (Rltb (min_prox 0 PI 0) (PI / 12) = true) as ->.
  { apply Rltb_true. angles. }
  assert (closest 0 PI 0 = DIAL_TARGET_ALPHA) as -> by angles.
  cbn. auto.
Qed.

(** C1: on a primary-button press, if the pointer is farther from the
    centre than 0.3 of the radius and the press angle is within PI/12 of
    alpha or of beta, the target becomes the closest handle and that
    handle takes exactly the press angle (the other one stays); in every
    other case the target becomes BOTH and alpha and beta stay. *)
Theorem press_event_decision (trig : GdkEventButton -> bool)
        (d : GimpDial) (ev : GdkEventButton) :
  b_type ev = GDK_BUTTON_PRESS -> trig ev = false -> b_button ev = 1%Z ->
  let a := alpha (priv d) in
  let b := beta (priv d) in
  let pa := pointer_angle d (b_x ev) (b_y ev) in
  let radius := IZR (dial_size d) / 2 in
  let grabs_one :=
    pointer_distance d (b_x ev) (b_y ev) > radius * (3 / 10)
    /\ min_prox a b pa < PI / 12 in
  let p' := priv (gimp_dial_button_press_event trig d ev) in
  (grabs_one ->
   target p' = closest a b pa
   /\ handle_angle (target p') (alpha p') (beta p') = pa
   /\ (target p' = DIAL_TARGET_ALPHA -> beta p' = b)
   /\ (target p' = DIAL_TARGET_BETA -> alpha p' = a))
  /\ (~ grabs_one ->
      target p' = DIAL_TARGET_BOTH /\ alpha p' = a /\ beta p' = b).
Proof.
  intros Hty Htrig Hbtn a b pa radius grabs_one p'.
  subst p'. rewrite (press_primary trig d ev Hty Htrig Hbtn). cbv zeta.
  fold a b pa. unfold EACH_OR_BOTH. fold radius.
  destruct (Rgtb _ _) eqn:Hfar; destruct (Rltb _ _) eqn:Hnear; cbn [andb].
  - split; [ intros _ | intros Hno; exfalso; apply Hno; split;
                        [ now apply Rgtb_true | now apply Rltb_true ] ].
    pose proof (closest_not_both a b pa) as Hnb.
    destruct (closest a b pa); cbn; try congruence; repeat split; congruence.
  - apply Rltb_false in Hnear.
    split; [ intros [_ Hn]; contradiction | intros _; cbn; auto ].
  - assert (~ pointer_distance d (b_x ev) (b_y ev) > radius * (3 / 10)) as Hf.
    { intros Hgt. apply Rgtb_true in Hgt. congruence. }
    split; [ intros [Hd _]; contradiction | intros _; cbn; auto ].
  - apply Rltb_false in Hnear.
    split; [ intros [_ Hn]; contradiction | intros _; cbn; auto ].
Qed.

Lemma press_event_decision_witness :
  let d := new_dial 100 100 0 in
  let ev := primary_press 100 50 in
  let pa := pointer_angle d 100 50 in
  let grabs_one :=
    pointer_distance d 100 50 > IZR (dial_size d) / 2 * (3 / 10)
    /\ min_prox 0 PI pa < PI / 12 in
  let p' := priv (gimp_dial_button_press_event no_context_menu d ev) in
  (grabs_one ->
   target p' = closest 0 PI pa
   /\ handle_angle (target p') (alpha p') (beta p') = pa
   /\ (target p' = DIAL_TARGET_ALPHA -> beta p' = PI)
   /\ (target p' = DIAL_TARGET_BETA -> alpha p' = 0))
  /\ (~ grabs_one ->
      target p' = DIAL_TARGET_BOTH /\ alpha p' = 0 /\ beta p' = PI).
Proof.
  apply (press_event_decision no_context_menu (new_dial 100 100 0)
                              (primary_press 100 50)); reflexivity.
Defined.

(** C5, as stated, fails on a dial whose allocation is smaller than twice
    its border: the size is negative, so is the threshold, and a press
    at the exact centre (distance 0, angle 0) of a new dial grabs alpha. *)
Lemma press_at_center_of_cramped_dial :
  let d := new_dial 100 100 64 in
  let ev := primary_press 50 50 in
  pointer_distance d (b_x ev) (b_y ev) = 0
  /\ target (priv (gimp_dial_button_press_event no_context_menu d ev))
     = DIAL_TARGET_ALPHA
  /\ target (priv (gimp_dial_button_press_event no_context_menu d ev))
     <> DIAL_TARGET_BOTH.
Proof.
  cbv zeta.
  set (d := new_dial 100 100 64).
  assert (center_x d = 50) as Hcx by (unfold d, center_x; cbn; lra).
  assert (center_y d = 50) as Hcy by (unfold d, center_y; cbn; lra).
  assert (pointer_distance d 50 50 = 0) as Hdist.
  { rewrite <- Hcx at 1. rewrite <- Hcy at 1. apply pointer_distance_center. }
  assert (pointer_angle d 50 50 = 0) as Hang.
  { rewrite <- Hcx at 1. rewrite <- Hcy at 1. apply pointer_angle_center. }
  assert (target (priv (gimp_dial_button_press_event
                          no_context_menu d (primary_press 50 50)))
          = DIAL_TARGET_ALPHA) as Htarget.
  { rewrite press_primary by reflexivity.
    cbn [b_x b_y primary_press]. cbv zeta. rewrite Hdist, Hang.
    replace (dial_size d) with (-28)%Z by reflexivity.
    cbn [priv alpha beta d new_dial].
    assert (Rgtb 0 (-28 / 2 * EACH_OR_BOTH) = true) as ->.
    { apply Rgtb_true. unfold EACH_OR_BOTH. lra. }
    assert (Rltb (min_prox 0 PI 0) (PI / 12) = true) as ->.
    { apply Rltb_true. angles. }
    assert (closest 0 PI 0 = DIAL_TARGET_ALPHA) as -> by angles.
    reflexivity. }
  split; [ exact Hdist | ].
  split; [ exact Htarget | ].
  rewrite Htarget. discriminate.
Qed.

(** C5 (amended): when the size of the dial, min(width, height) minus
    twice the border width, is not negative, a press at the exact centre
    sets the target to BOTH and leaves alpha and beta alone, whatever
    they are. *)
Theorem press_at_center_targets_both (trig : GdkEventButton -> bool)
        (d : GimpDial) (ev : GdkEventButton) :
  b_type ev = GDK_BUTTON_PRESS -> trig ev = false -> b_button ev = 1%Z ->
  b_x ev = center_x d -> b_y ev = center_y d ->
  (0 <= dial_size d)%Z ->
  let p' := priv (gimp_dial_button_press_event trig d ev) in
  pointer_distance d (b_x ev) (b_y ev) = 0
  /\ target p' = DIAL_TARGET_BOTH
  /\ alpha p' = alpha (priv d)
  /\ beta p' = beta (priv d).
Proof.
  intros Hty Htrig Hbtn Hx Hy Hsize p'. subst p'.
  rewrite (press_primary trig d ev Hty Htrig Hbtn). cbv zeta.
  rewrite Hx, Hy, pointer_distance_center.
  assert (Rgtb 0 (IZR (dial_size d) / 2 * EACH_OR_BOTH) = false) as ->.
  { apply Rltb_false. apply IZR_le in Hsize. unfold EACH_OR_BOTH. lra. }
  cbn. auto.
Qed.

Lemma press_at_center_targets_both_witness :
  let d := new_dial 100 100 0 in
  let p' := priv (gimp_dial_button_press_event
                    no_context_menu d (primary_press 50 50)) in
  pointer_distance d 50 50 = 0
  /\ target p' = DIAL_TARGET_BOTH
  /\ alpha p' = 0
  /\ beta p' = PI.
Proof.
  apply (press_at_center_targets_both no_context_menu (new_dial 100 100 0)
                                      (primary_press 50 50)).
  - reflexivity.
  - reflexivity.
  - reflexivity.
  - unfold center_x, new_dial, primary_press; simpl width; simpl b_x; lra.
  - unfold center_y, new_dial, primary_press; simpl height; simpl b_y; lra.
  - vm_compute; discriminate.
Defined.

(** ** The motion handler *)


(** What a motion does to a dial whose target is BOTH. *)
Lemma motion_both (fl : R -> R) (d : GimpDial) (ev : GdkEventMotion) :
  target (priv d) = DIAL_TARGET_BOTH ->
  let delta :=
    fl (fl (pointer_angle d (m_x ev) (m_y ev)) - press_angle (priv d)) in
  let p' := priv (gimp_dial_motion_notify_event fl d ev) in
  (delta = 0 -> alpha p' = alpha (priv d) /\ beta p' = beta (priv d))
  /\ (delta <> 0 ->
      alpha p' = angle_mod_2PI (alpha (priv d) + delta)
      /\ beta p' = angle_mod_2PI (beta (priv d) + delta)).
Proof.
  intros Ht delta p'. subst p'.
  unfold gimp_dial_motion_notify_event. fold delta.
  destruct (Req_dec_T delta 0) as [Hz | Hnz].
  - split; [ intros _; cbn; auto | intros Hn; contradiction ].
  - split; [ intros Hn; contradiction | intros _ ].
    cbn [target set_press_angle]. rewrite Ht. cbn. auto.
Qed.



(** ** Narrowing to [gfloat] *)

Lemma PI_binary32_bounds : 13176794.5 / 4194304 < PI < 13176795 / 4194304.
Proof.
  pose proof (PI_2_3_7_ineq 3) as [Hlo Hhi].
  unfold sum_f_R0, tg_alt, PI_2_3_7_tg, Ratan_seq in Hlo, Hhi.
  simpl in Hlo, Hhi.
  split; lra.
Qed.

Lemma round_nearest_even_le (r : R) (k : Z) :
  r <= IZR k -> (round_nearest_even r <= k)%Z.
Proof.
  intros Hr. unfold round_nearest_even.
  destruct (base_Int_part r) as [Hlo Hhi].
  set (f := Int_part r) in *.
  assert (f <= k)%Z as Hfk by (apply le_IZR; lra).
  destruct (Z.eq_dec f k) as [-> | Hne].
  - destruct (Rlt_dec (r - IZR k) (1 / 2)); [ lia | lra ].
  - destruct (Rlt_dec _ _); [ lia | ].
    destruct (Rlt_dec _ _); [ lia | ]. destruct (Z.even f); lia.
Qed.

Lemma round_nearest_even_ge (r : R) (k : Z) :
  IZR k <= r -> (k <= round_nearest_even r)%Z.
Proof.
  intros Hr. unfold round_nearest_even.
  destruct (base_Int_part r) as [Hlo Hhi].
  set (f := Int_part r) in *.
  assert (k <= f)%Z as Hfk.
  { assert (k < f + 1)%Z; [ | lia ]. apply lt_IZR. rewrite plus_IZR. lra. }
  destruct (Rlt_dec _ _); [ lia | ].
  destruct (Rlt_dec _ _); [ lia | ]. destruct (Z.even f); lia.
Qed.

Lemma round_nearest_even_IZR (k : Z) : round_nearest_even (IZR k) = k.
Proof.
  apply Z.le_antisymm;
    [ apply round_nearest_even_le | apply round_nearest_even_ge ]; lra.
Qed.

Lemma ln_2_pos : 0 < ln 2.
Proof. rewrite <- ln_1. apply ln_increasing; lra. Qed.





Lemma to_binary32_0 : to_binary32 0 = 0.
Proof.
  unfold to_binary32. rewrite Rmult_0_l.
  rewrite (round_nearest_even_IZR 0). apply Rmult_0_l.
Qed.

Lemma ln_below_8 (x : R) : 0 <= x < 8 -> ln x < 3 * ln 2.
Proof.
  intros [[Hpos | <-] Hhi].
  - assert (ln (2 ^ 3) = 3 * ln 2) as <-.
    { rewrite ln_pow; [ simpl; lra | lra ]. }
    apply ln_increasing; simpl; lra.
  - pose proof ln_2_pos.
    assert (ln 0 = 0) as ->
        by (unfold ln; destruct (Rlt_dec 0 0) as [Hlt | _];
            [ exfalso; exact (Rlt_irrefl 0 Hlt) | reflexivity ]).
    lra.
Qed.

Lemma binary32_ulp_exponent_below_8 (x : R) :
  Rabs x < 8 -> (-149 <= binary32_ulp_exponent x <= -21)%Z.
Proof.
  intros Hx. unfold binary32_ulp_exponent.
  pose proof ln_2_pos as H2.
  pose proof (ln_below_8 (Rabs x) (conj (Rabs_pos x) Hx)) as Hln.
  destruct (base_Int_part (ln (Rabs x) / ln 2)) as [Hlo _].
  assert (ln (Rabs x) / ln 2 < 3) as Hq.
  { apply (Rmult_lt_reg_r (ln 2)); [ lra | ].
    unfold Rdiv. rewrite Rmult_assoc, Rinv_l by lra. lra. }
  assert (Int_part (ln (Rabs x) / ln 2) < 3)%Z by (apply lt_IZR; lra).
  lia.
Qed.

(** The narrowed full turn is a multiple of the last place of every
    smaller number. *)
Lemma full_turn_on_the_grid (e : Z) :
  (e <= -21)%Z ->
  exists k : Z, binary32_full_turn * powerRZ 2 (- e) = IZR k.
Proof.
  intros He.
  assert (exists n : nat, (- e = 21 + Z.of_nat n)%Z) as [n ->]
      by (exists (Z.to_nat (- e - 21)); lia).
  exists (13176795 * 2 ^ Z.of_nat n)%Z.
  rewrite powerRZ_add by lra.
  rewrite <- pow_powerRZ, mult_IZR, <- pow_IZR.
  unfold binary32_full_turn.
  assert (powerRZ 2 21 = 2097152) as -> by (simpl; lra).
  field.
Qed.

Lemma to_binary32_bounded (x : R) :
  - binary32_full_turn <= x <= binary32_full_turn ->
  - binary32_full_turn <= to_binary32 x <= binary32_full_turn
  /\ (0 <= x -> 0 <= to_binary32 x).
Proof.
  intros Hx. unfold to_binary32.
  assert (Rabs x < 8) as Habs.
  { unfold binary32_full_turn in Hx. apply Rabs_def1; lra. }
  destruct (binary32_ulp_exponent_below_8 x Habs) as [_ He].
  set (e := binary32_ulp_exponent x) in *.
  destruct (full_turn_on_the_grid e He) as [k Hk].
  assert (0 < powerRZ 2 (- e)) as Hs by (apply powerRZ_lt; lra).
  assert (0 < powerRZ 2 e) as Ht by (apply powerRZ_lt; lra).
  assert (powerRZ 2 (- e) * powerRZ 2 e = 1) as Hst.
  { rewrite <- powerRZ_add by lra.
    replace (- e + e)%Z with 0%Z by lia. reflexivity. }
  set (s := powerRZ 2 (- e)) in *. set (t := powerRZ 2 e) in *.
  assert (x * s <= IZR k) as Hup by (rewrite <- Hk; nra).
  assert (IZR (- k) <= x * s) as Hdown by (rewrite opp_IZR, <- Hk; nra).
  apply round_nearest_even_le, IZR_le in Hup.
  apply round_nearest_even_ge, IZR_le in Hdown.
  rewrite opp_IZR in Hdown.
  set (r := IZR (round_nearest_even (x * s))) in *.
  assert (binary32_full_turn = IZR k * t) as HF.
  { rewrite <- Hk. rewrite Rmult_assoc, Hst. ring. }
  split; [ rewrite HF; split; nra | ].
  intros H0.
  assert (IZR 0 <= x * s) as Hz by (simpl; nra).
  apply round_nearest_even_ge, IZR_le in Hz. fold r in Hz. nra.
Qed.

(** The C cast keeps angles and differences of angles within the
    narrowed full turn. *)
Lemma to_binary32_keeps_within :
  gfloat_keeps_within to_binary32 binary32_full_turn.
Proof.
  split; intros x Hx.
  - assert (- binary32_full_turn <= x <= binary32_full_turn) as Hx' by lra.
    destruct (to_binary32_bounded x Hx') as [[_ Hup] Hpos].
    split; [ apply Hpos; lra | exact Hup ].
  - now apply to_binary32_bounded.
Qed.

Lemma full_turn_below_binary32 : 2 * PI <= binary32_full_turn.
Proof.
  pose proof PI_binary32_bounds. unfold binary32_full_turn. lra.
Qed.

(** ** The range of the stored angles *)

Lemma press_near_center_grabs_both :
  gimp_dial_button_press_event no_context_menu (new_dial 100 100 0)
                               (primary_press 60 50)
  = dial_grabbed_both.
Proof.
  set (d := new_dial 100 100 0).
  assert (center_x d = 50) as Hcx by (unfold d, center_x; cbn; lra).
  assert (center_y d = 50) as Hcy by (unfold d, center_y; cbn; lra).
  rewrite press_primary by reflexivity.
  cbn [b_x b_y b_state primary_press]. cbv zeta.
  rewrite <- Hcy, pointer_distance_level, pointer_angle_east, Hcx by lra.
  replace (dial_size d) with 100%Z by reflexivity.
  assert (Rgtb (Rabs (60 - 50)) (100 / 2 * EACH_OR_BOTH) = false) as ->.
  { apply Rltb_false. unfold EACH_OR_BOTH.
    rewrite Rabs_right by lra. lra. }
  reflexivity.
Qed.




(** ** The background pass *)

Lemma In_counter (n i : Z) : In i (counter n) <-> (0 <= i < n)%Z.
Proof.
  unfold counter. rewrite in_map_iff. split.
  - intros (k & <- & Hk). apply in_seq in Hk. lia.
  - intros Hi. exists (Z.to_nat i). split; [ lia | ].
    apply in_seq. lia.
Qed.

Section BackgroundLoops.

Variables (size stride : Z) (bg_func : GimpDialBGFunc).

Lemma background_pixel_at (j i o : Z) (data : SurfaceData) :
  background_pixel size stride bg_func j data i o
  = if (o =? pixel_offset stride j i)%Z
    then written_pixel size stride bg_func j i
    else data o.
Proof.
  unfold written_pixel, pixel_offset, background_pixel,
    GIMP_CAIRO_ARGB32_SET_PIXEL.
  destruct (bg_func _ _) as [[r g] b].
  rewrite Z.eqb_refl. reflexivity.
Qed.

Lemma row_frame (j o : Z) (l : list Z) (data : SurfaceData) :
  (forall i, In i l -> pixel_offset stride j i <> o) ->
  fold_left (background_pixel size stride bg_func j) l data o = data o.
Proof.
  revert data. induction l as [ | i l IH ]; intros data Hfree.
  - reflexivity.
  - cbn [fold_left]. rewrite IH by (intros; apply Hfree; now right).
    rewrite background_pixel_at.
    destruct (Z.eqb_spec o (pixel_offset stride j i)) as [Heq | _];
      [ | reflexivity ].
    exfalso. apply (Hfree i); [ now left | now symmetry ].
Qed.

Lemma row_write (j i : Z) (l : list Z) (data : SurfaceData) :
  In i l ->
  fold_left (background_pixel size stride bg_func j) l data
            (pixel_offset stride j i)
  = written_pixel size stride bg_func j i.
Proof.
  induction l as [ | x l IH ] using rev_ind; intros Hin.
  - destruct Hin.
  - rewrite fold_left_app. cbn [fold_left].
    rewrite background_pixel_at.
    destruct (Z.eqb_spec (pixel_offset stride j i) (pixel_offset stride j x))
      as [Heq | Hne].
    + assert (x = i) as -> by (unfold pixel_offset in Heq; lia). reflexivity.
    + apply IH. apply in_app_or in Hin.
      destruct Hin as [Hin | [-> | []]]; [ exact Hin | congruence ].
Qed.

Lemma offset_injective (j j' i i' : Z) :
  (4 * size <= stride)%Z ->
  (0 <= i < size)%Z -> (0 <= i' < size)%Z ->
  pixel_offset stride j i = pixel_offset stride j' i' -> j = j' /\ i = i'.
Proof.
  unfold pixel_offset. intros Hs Hi Hi' Heq.
  assert (j = j') as -> by nia.
  split; [ reflexivity | lia ].
Qed.

Lemma rows_write (j i : Z) (l : list Z) (data : SurfaceData) :
  (4 * size <= stride)%Z -> (0 <= i < size)%Z -> In j l ->
  fold_left (background_row size stride bg_func) l data
            (pixel_offset stride j i)
  = written_pixel size stride bg_func j i.
Proof.
  intros Hs Hi.
  induction l as [ | x l IH ] using rev_ind; intros Hin.
  - destruct Hin.
  - rewrite fold_left_app. cbn [fold_left]. unfold background_row at 1.
    destruct (Z.eq_dec x j) as [-> | Hne].
    + apply row_write. now apply In_counter.
    + rewrite row_frame.
      * apply IH. apply in_app_or in Hin.
        destruct Hin as [Hin | [-> | []]]; [ exact Hin | congruence ].
      * intros i' Hi' Heq. apply In_counter in Hi'.
        destruct (offset_injective x j i' i Hs Hi' Hi Heq). congruence.
Qed.

Lemma draw_background_at (j i : Z) :
  (4 * size <= stride)%Z -> (0 <= i < size)%Z -> (0 <= j < size)%Z ->
  gimp_dial_draw_background size stride bg_func (pixel_offset stride j i)
  = written_pixel size stride bg_func j i.
Proof.
  intros Hs Hi Hj. unfold gimp_dial_draw_background.
  apply rows_write; [ exact Hs | exact Hi | now apply In_counter ].
Qed.

End BackgroundLoops.

Lemma sqrt_over_square (x c : R) :
  0 < c -> sqrt (x / SQR c) = sqrt x / c.
Proof.
  intros Hc. unfold SQR.
  rewrite sqrt_div_alt by nra.
  rewrite sqrt_square by lra. reflexivity.
Qed.

(** C9: for every pixel (i, j) of the size x size buffer, the colour the
    background pass writes is the HSV-to-RGB conversion of
    hue = arctg (size/2 - j, i - size/2) / (2*PI), saturation = distance
    from the centre over the radius, at most 1, and value =
    1 - sqrt (saturation) / 4, with alpha 255; and it is what the
    finished surface holds for that pixel when its rows are at least
    4 * size bytes apart. *)
Theorem background_pixel_is_hsv
        (hsv_to_rgb : R -> R -> R -> Z * Z * Z) (size stride i j : Z) :
  (0 <= i < size)%Z -> (0 <= j < size)%Z ->
  let radius := IZR size / 2 in
  let from_center :=
    sqrt (SQR (IZR i - radius) + SQR (IZR j - radius)) in
  let saturation := Rmin 1 (from_center / radius) in
  let hue := arctg (radius - IZR j) (IZR i - radius) / (2 * PI) in
  let value := 1 - sqrt saturation / 4 in
  let colour :=
    let '(r, g, b) := hsv_to_rgb hue saturation value in
    mkPixel r g b 255 in
  let bg_func := gimp_dial_background_func_hsv hsv_to_rgb in
  written_pixel size stride bg_func j i = colour
  /\ ((4 * size <= stride)%Z ->
      gimp_dial_draw_background size stride bg_func (j * stride + i * 4)%Z
      = colour).
Proof.
  intros Hi Hj radius from_center saturation hue value colour bg_func.
  assert (written_pixel size stride bg_func j i = colour) as Hwritten.
  { unfold written_pixel, pixel_offset, background_pixel, bg_func,
      gimp_dial_background_func_hsv, GIMP_CAIRO_ARGB32_SET_PIXEL.
    fold radius. rewrite sqrt_over_square.
    - fold from_center. rewrite MIN_Rmin. fold saturation hue value.
      subst colour.
      destruct (hsv_to_rgb hue saturation value) as [[r g] b].
      rewrite Z.eqb_refl. reflexivity.
    - unfold radius. assert (0 < IZR size) by (apply IZR_lt; lia). lra. }
  split; [ exact Hwritten | intros Hs ].
  change (j * stride + i * 4)%Z with (pixel_offset stride j i).
  rewrite draw_background_at by assumption.
  exact Hwritten.
Qed.

Lemma background_pixel_is_hsv_witness :
  let bg_func := gimp_dial_background_func_hsv always_black in
  written_pixel 2 8 bg_func 1 0 = mkPixel 0 0 0 255
  /\ ((4 * 2 <= 8)%Z ->
      gimp_dial_draw_background 2 8 bg_func (1 * 8 + 0 * 4)%Z
      = mkPixel 0 0 0 255).
Proof.
  apply (background_pixel_is_hsv always_black 2 8 0 1); lia.
Defined.

(** ** Properties, size request and exposure *)

(** X1: reading a property back after setting it gives the value set,
    reading any other property gives what it held before, and setting
    a property touches neither the target, the press angle, the grab nor
    the stored modifiers. *)
Theorem get_property_after_set (p : GimpDialPrivate) (prop : Property) :
  let p' := gimp_dial_set_property p prop in
  gimp_dial_get_property p' (property_id prop) = prop
  /\ (forall id, id <> property_id prop ->
                 gimp_dial_get_property p' id = gimp_dial_get_property p id)
  /\ target p' = target p
  /\ press_angle p' = press_angle p
  /\ has_grab p' = has_grab p
  /\ press_state p' = press_state p.
Proof.
  destruct prop; cbn; repeat split; intros [] Hid; cbn in *; congruence.
Qed.

Lemma MINi_min (a b : Z) : MINi a b = Z.min a b.
Proof. unfold MINi. destruct (Z.ltb_spec a b); lia. Qed.

(** X2: the dial asks for a square of 96 pixels plus its border on each
    side; allocated exactly that, its size is 96, and allocated at least
    that in both directions, its size is at least 96. *)
Theorem size_request_gives_96 (d : GimpDial) (a : GtkAllocation) :
  let '(w, h) := gimp_dial_size_request d in
  w = h
  /\ (width a = w -> height a = h ->
      dial_size (gimp_dial_size_allocate d a) = 96%Z)
  /\ ((w <= width a)%Z -> (h <= height a)%Z ->
      (96 <= dial_size (gimp_dial_size_allocate d a))%Z).
Proof.
  unfold gimp_dial_size_request, gimp_dial_size_allocate, dial_size.
  cbn [allocation priv]. rewrite MINi_min.
  repeat split; intros; lia.
Qed.

Lemma expose_offsets (w h bw : Z) :
  let size := (MINi w h - 2 * bw)%Z in
  let x := Z.quot (w - 2 * bw - size) 2 in
  let y := Z.quot (h - 2 * bw - size) 2 in
  (x = 0 \/ y = 0)%Z
  /\ (0 <= 2 * x <= w - 2 * bw - size)%Z
  /\ (w - 2 * bw - size <= 2 * x + 1)%Z
  /\ (0 <= 2 * y <= h - 2 * bw - size)%Z
  /\ (h - 2 * bw - size <= 2 * y + 1)%Z.
Proof.
  cbv zeta. rewrite MINi_min.
  assert (0 <= w - 2 * bw - (Z.min w h - 2 * bw))%Z as Hw by lia.
  assert (0 <= h - 2 * bw - (Z.min w h - 2 * bw))%Z as Hh by lia.
  rewrite !Z.quot_div_nonneg by lia.
  destruct (Z.min_spec w h) as [[Hlt ->] | [Hle ->]].
  - replace (w - 2 * bw - (w - 2 * bw))%Z with 0%Z by lia.
    change (0 / 2)%Z with 0%Z.
    pose proof (Z.div_mod (h - 2 * bw - (w - 2 * bw)) 2 ltac:(lia)).
    pose proof (Z.mod_pos_bound (h - 2 * bw - (w - 2 * bw)) 2 ltac:(lia)).
    lia.
  - replace (h - 2 * bw - (h - 2 * bw))%Z with 0%Z by lia.
    change (0 / 2)%Z with 0%Z.
    pose proof (Z.div_mod (w - 2 * bw - (h - 2 * bw)) 2 ltac:(lia)).
    pose proof (Z.mod_pos_bound (w - 2 * bw - (h - 2 * bw)) 2 ltac:(lia)).
    lia.
Qed.

(** X3: a dial that is not drawable draws nothing.  A drawable one draws
    a square of the size the hit test uses, inside the allocation less
    its border: the square is flush with the border in one direction
    and centred, to the pixel, in the other. *)
Theorem expose_centres_the_square (drawable : bool) (d : GimpDial) :
  let a := allocation d in
  let bw := border_width (priv d) in
  match gimp_dial_expose_event drawable d with
  | None => drawable = false
  | Some e =>
      let x := (translate_x e - alloc_x a - bw)%Z in
      let y := (translate_y e - alloc_y a - bw)%Z in
      let slack_x := (width a - 2 * bw - drawn_size e)%Z in
      let slack_y := (height a - 2 * bw - drawn_size e)%Z in
      drawable = true
      /\ drawn_size e = dial_size d
      /\ (x = 0 \/ y = 0)%Z
      /\ (0 <= 2 * x <= slack_x)%Z /\ (slack_x <= 2 * x + 1)%Z
      /\ (0 <= 2 * y <= slack_y)%Z /\ (slack_y <= 2 * y + 1)%Z
  end.
Proof.
  unfold gimp_dial_expose_event. destruct drawable; [ | reflexivity ].
  cbn [translate_x translate_y drawn_size].
  pose proof (expose_offsets (width (allocation d)) (height (allocation d))
                             (border_width (priv d))) as H.
  cbv zeta in H |- *.
  repeat split; try reflexivity; lia.
Qed.

(** X4: the centre the pointer handlers measure from, half the width and
    half the height of the allocation, is the centre of the drawn square
    when the slack left beside the square is even, and lies half a pixel
    to the right of it (or below it) when the slack is odd. *)
Theorem hit_centre_and_drawn_centre (d : GimpDial) (e : Exposed) :
  gimp_dial_expose_event true d = Some e ->
  let a := allocation d in
  let bw := border_width (priv d) in
  let drawn_x := IZR (translate_x e - alloc_x a) + IZR (drawn_size e) / 2 in
  let drawn_y := IZR (translate_y e - alloc_y a) + IZR (drawn_size e) / 2 in
  let slack_x := (width a - 2 * bw - drawn_size e)%Z in
  let slack_y := (height a - 2 * bw - drawn_size e)%Z in
  center_x d - drawn_x = IZR (slack_x mod 2) / 2
  /\ center_y d - drawn_y = IZR (slack_y mod 2) / 2
  /\ (center_x d = drawn_x \/ center_x d = drawn_x + 1 / 2)
  /\ (center_y d = drawn_y \/ center_y d = drawn_y + 1 / 2).
Proof.
  intros He. unfold gimp_dial_expose_event in He. cbv zeta in He.
  assert (forall u v : Exposed, Some u = Some v -> u = v) as Hsome
      by (intros u v Huv; congruence).
  apply Hsome in He. subst e.
  cbn [translate_x translate_y drawn_size]. cbv zeta.
  set (w := width (allocation d)). set (h := height (allocation d)).
  set (bw := border_width (priv d)).
  set (size := (MINi w h - 2 * bw)%Z).
  assert (0 <= w - 2 * bw - size)%Z as Hw
      by (unfold size; rewrite MINi_min; lia).
  assert (0 <= h - 2 * bw - size)%Z as Hh
      by (unfold size; rewrite MINi_min; lia).
  rewrite !Z.quot_div_nonneg by lia.
  pose proof (Z.div_mod (w - 2 * bw - size) 2 ltac:(lia)) as Hdx.
  pose proof (Z.mod_pos_bound (w - 2 * bw - size) 2 ltac:(lia)) as Hmx.
  pose proof (Z.div_mod (h - 2 * bw - size) 2 ltac:(lia)) as Hdy.
  pose proof (Z.mod_pos_bound (h - 2 * bw - size) 2 ltac:(lia)) as Hmy.
  set (qx := ((w - 2 * bw - size) / 2)%Z) in *.
  set (rx := ((w - 2 * bw - size) mod 2)%Z) in *.
  set (qy := ((h - 2 * bw - size) / 2)%Z) in *.
  set (ry := ((h - 2 * bw - size) mod 2)%Z) in *.
  unfold center_x, center_y. fold w h.
  assert (IZR w = 2 * IZR bw + IZR size + 2 * IZR qx + IZR rx) as HW.
  { rewrite <- !mult_IZR, <- !plus_IZR. f_equal. lia. }
  assert (IZR h = 2 * IZR bw + IZR size + 2 * IZR qy + IZR ry) as HH.
  { rewrite <- !mult_IZR, <- !plus_IZR. f_equal. lia. }
  replace (alloc_x (allocation d) + bw + qx - alloc_x (allocation d))%Z
    with (bw + qx)%Z by lia.
  replace (alloc_y (allocation d) + bw + qy - alloc_y (allocation d))%Z
    with (bw + qy)%Z by lia.
  rewrite !plus_IZR.
  assert (IZR rx = 0 \/ IZR rx = 1) as Hrx.
  { assert (rx = 0 \/ rx = 1)%Z as [-> | ->] by lia; auto. }
  assert (IZR ry = 0 \/ IZR ry = 1) as Hry.
  { assert (ry = 0 \/ ry = 1)%Z as [-> | ->] by lia; auto. }
  repeat split.
  - lra.
  - lra.
  - destruct Hrx as [Hr | Hr]; [ left | right ]; lra.
  - destruct Hry as [Hr | Hr]; [ left | right ]; lra.
Qed.

Lemma hit_centre_and_drawn_centre_witness :
  let d := new_dial 101 60 10 in
  let e := mkExposed 30 10 40 in
  let drawn_x := IZR (translate_x e - 0) + IZR (drawn_size e) / 2 in
  let drawn_y := IZR (translate_y e - 0) + IZR (drawn_size e) / 2 in
  let slack_x := (101 - 2 * 10 - drawn_size e)%Z in
  let slack_y := (60 - 2 * 10 - drawn_size e)%Z in
  center_x d - drawn_x = IZR (slack_x mod 2) / 2
  /\ center_y d - drawn_y = IZR (slack_y mod 2) / 2
  /\ (center_x d = drawn_x \/ center_x d = drawn_x + 1 / 2)
  /\ (center_y d = drawn_y \/ center_y d = drawn_y + 1 / 2).
Proof.
  apply (hit_centre_and_drawn_centre (new_dial 101 60 10)
                                     (mkExposed 30 10 40)).
  reflexivity.
Defined.

(** ** More on the angle engine *)

(** X5: [angle_mod_2PI] lands within [0, 2*PI] exactly for the inputs
    within one turn of that range; it is no general modulo, an input
    beyond [-2*PI, 4*PI] stays out of range. *)
Theorem angle_mod_2PI_in_range_iff (x : R) :
  in_property_range (angle_mod_2PI x) <-> - (2 * PI) <= x <= 4 * PI.
Proof. split; angles. Qed.

(** X6: wrapping an angle never changes the direction it stands for:
    the result differs from the input by a whole turn or not at all, and
    has the same cosine and sine. *)
Theorem angle_mod_2PI_same_direction (x : R) :
  (angle_mod_2PI x = x + 2 * PI
   \/ angle_mod_2PI x = x
   \/ angle_mod_2PI x = x - 2 * PI)
  /\ cos (angle_mod_2PI x) = cos x
  /\ sin (angle_mod_2PI x) = sin x.
Proof.
  assert (forall y, cos (y + 2 * PI) = cos y /\ sin (y + 2 * PI) = sin y)
    as Hturn.
  { intros y. pose proof (cos_period y 1) as Hc.
    pose proof (sin_period y 1) as Hs. simpl INR in Hc, Hs.
    replace (y + 2 * 1 * PI) with (y + 2 * PI) in Hc, Hs by ring.
    now split. }
  unfold angle_mod_2PI.
  destruct (Rlt_dec x 0); [ | destruct (Rgt_dec x (2 * PI)) ].
  - split; [ now left | apply Hturn ].
  - split; [ now right; right | ].
    destruct (Hturn (x - 2 * PI)) as [Hc Hs].
    replace (x - 2 * PI + 2 * PI) with x in Hc, Hs by ring.
    now split.
  - split; [ now right; left | now split ].
Qed.

Lemma angular_distance_zero_iff (a b : R) :
  normalized a -> normalized b ->
  (angular_distance a b = 0 <-> a = b).
Proof. intros Ha Hb; split; angles. Qed.

Lemma angular_distance_triangle (a b c : R) :
  in_property_range a -> in_property_range b -> in_property_range c ->
  angular_distance a c <= angular_distance a b + angular_distance b c.
Proof. intros Ha Hb Hc; angles. Qed.

(** X7: on normalized angles the angular distance separates points
    (it is 0 only between equal angles) and obeys the triangle
    inequality. *)
Theorem angular_distance_is_a_metric (a b c : R) :
  normalized a -> normalized b -> normalized c ->
  (angular_distance a b = 0 <-> a = b)
  /\ angular_distance a c <= angular_distance a b + angular_distance b c.
Proof.
  intros Ha Hb Hc. split.
  - now apply angular_distance_zero_iff.
  - apply angular_distance_triangle; now apply normalized_in_property_range.
Qed.

Lemma angular_distance_is_a_metric_witness :
  (angular_distance 1 2 = 0 <-> 1 = 2)
  /\ angular_distance 1 3 <= angular_distance 1 2 + angular_distance 2 3.
Proof.
  apply (angular_distance_is_a_metric 1 2 3);
    unfold normalized; pose proof PI2_3_2; lra.
Defined.

(** X8: [min_prox] does not care which handle is called alpha; for
    normalized arguments it lies in [0, PI] and is 0 exactly when the
    angle is that of a handle. *)
Theorem min_prox_handles (alpha beta angle : R) :
  normalized alpha -> normalized beta -> normalized angle ->
  min_prox alpha beta angle = min_prox beta alpha angle
  /\ 0 <= min_prox alpha beta angle <= PI
  /\ (min_prox alpha beta angle = 0 <-> angle = alpha \/ angle = beta).
Proof.
  intros Ha Hb Hx.
  pose proof (angular_distance_range alpha angle
                (normalized_in_property_range _ Ha)
                (normalized_in_property_range _ Hx)) as Hra.
  pose proof (angular_distance_range beta angle
                (normalized_in_property_range _ Hb)
                (normalized_in_property_range _ Hx)) as Hrb.
  pose proof (angular_distance_zero_iff alpha angle Ha Hx) as Hza.
  pose proof (angular_distance_zero_iff beta angle Hb Hx) as Hzb.
  rewrite !min_prox_angular_distance.
  set (da := angular_distance alpha angle) in *.
  set (db := angular_distance beta angle) in *.
  unfold MIN.
  destruct (Rlt_dec da db), (Rlt_dec db da); lra.
Qed.

Lemma min_prox_handles_witness :
  min_prox 0 PI 1 = min_prox PI 0 1
  /\ 0 <= min_prox 0 PI 1 <= PI
  /\ (min_prox 0 PI 1 = 0 <-> 1 = 0 \/ 1 = PI).
Proof.
  apply (min_prox_handles 0 PI 1);
    unfold normalized; pose proof PI2_3_2; lra.
Defined.

Lemma atan2_scale (k y x : R) : 0 < k -> atan2 (k * y) (k * x) = atan2 y x.
Proof.
  intros Hk. unfold atan2.
  assert (x <> 0 -> k * y / (k * x) = y / x) as Hq by (intros; field; lra).
  destruct (Rtotal_order x 0) as [Hx | [Hx | Hx]];
    destruct (Rtotal_order y 0) as [Hy | [Hy | Hy]];
    try (assert (k * x < 0) by nra);
    try (assert (0 < k * x) by nra);
    try (assert (k * x = 0) by nra);
    try (assert (k * y < 0) by nra);
    try (assert (0 < k * y) by nra);
    try (assert (k * y = 0) by nra);
    split_comparisons; try lra;
    try (rewrite Hq by lra; reflexivity).
Qed.

(** X9: the angle of a pointer position depends on the direction from
    the centre only: moving the pointer along the ray through the
    centre, by any factor k > 0, leaves [arctg] and the pointer angle
    unchanged. *)
Theorem pointer_angle_along_ray (d : GimpDial) (k dx dy : R) :
  0 < k ->
  arctg (k * dy) (k * dx) = arctg dy dx
  /\ pointer_angle d (center_x d + k * dx) (center_y d - k * dy)
     = pointer_angle d (center_x d + dx) (center_y d - dy).
Proof.
  intros Hk.
  assert (arctg (k * dy) (k * dx) = arctg dy dx) as Hray
      by (unfold arctg; now rewrite atan2_scale).
  split; [ exact Hray | ].
  unfold pointer_angle.
  replace (center_y d - (center_y d - k * dy)) with (k * dy) by ring.
  replace (center_x d + k * dx - center_x d) with (k * dx) by ring.
  replace (center_y d - (center_y d - dy)) with dy by ring.
  replace (center_x d + dx - center_x d) with dx by ring.
  now rewrite Hray.
Qed.

Lemma pointer_angle_along_ray_witness :
  arctg (2 * 3) (2 * 4) = arctg 3 4
  /\ pointer_angle (new_dial 100 100 0)
                   (center_x (new_dial 100 100 0) + 2 * 4)
                   (center_y (new_dial 100 100 0) - 2 * 3)
     = pointer_angle (new_dial 100 100 0)
                     (center_x (new_dial 100 100 0) + 4)
                     (center_y (new_dial 100 100 0) - 3).
Proof.
  apply (pointer_angle_along_ray (new_dial 100 100 0) 2 4 3). lra.
Defined.

(** ** More on the handlers *)

Lemma angle_mod_2PI_whole_turn (x : R) :
  angle_mod_2PI x = x + 2 * PI
  \/ angle_mod_2PI x = x
  \/ angle_mod_2PI x = x - 2 * PI.
Proof.
  unfold angle_mod_2PI.
  destruct (Rlt_dec x 0); [ | destruct (Rgt_dec x (2 * PI)) ]; auto.
Qed.

(** X10: a primary-button press that grabs one handle was made outside
    the inner zone, and it moves that handle by an angular distance
    below PI/12: the handle never jumps further than that. *)
Theorem press_moves_handle_less_than_15_degrees
        (trig : GdkEventButton -> bool)
        (d : GimpDial) (ev : GdkEventButton) :
  b_type ev = GDK_BUTTON_PRESS -> trig ev = false -> b_button ev = 1%Z ->
  target (priv (gimp_dial_button_press_event trig d ev))
  <> DIAL_TARGET_BOTH ->
  let p' := priv (gimp_dial_button_press_event trig d ev) in
  pointer_distance d (b_x ev) (b_y ev) > IZR (dial_size d) / 2 * (3 / 10)
  /\ angular_distance
       (handle_angle (target p') (alpha (priv d)) (beta (priv d)))
       (handle_angle (target p') (alpha p') (beta p'))
     < PI / 12.
Proof.
  intros Hty Htrig Hbtn. cbv zeta.
  rewrite (press_primary trig d ev Hty Htrig Hbtn). cbv zeta.
  set (pa := pointer_angle d (b_x ev) (b_y ev)).
  set (a := alpha (priv d)). set (b := beta (priv d)).
  destruct (Rgtb _ _) eqn:Hfar; destruct (Rltb _ _) eqn:Hnear;
    cbn [andb]; try (cbn; congruence).
  apply Rgtb_true in Hfar. apply Rltb_true in Hnear.
  unfold EACH_OR_BOTH in Hfar.
  rewrite min_prox_angular_distance in Hnear. unfold MIN in Hnear.
  pose proof (closest_is_alpha_iff a b pa) as Halpha.
  pose proof (closest_not_both a b pa) as Hnb.
  destruct (closest a b pa) eqn:Hc; cbn; intros _; (split; [ exact Hfar | ]).
  - assert (angular_distance a pa < angular_distance b pa) as Hlt
        by now apply Halpha.
    destruct (Rlt_dec _ _) in Hnear; lra.
  - assert (~ angular_distance a pa < angular_distance b pa) as Hge.
    { intros Hlt. apply Halpha in Hlt. discriminate. }
    destruct (Rlt_dec _ _) in Hnear; [ contradiction | exact Hnear ].
  - congruence.
Qed.

Lemma press_moves_handle_less_than_15_degrees_witness :
  let d := new_dial 100 100 0 in
  let ev := primary_press 100 50 in
  let p' := priv (gimp_dial_button_press_event no_context_menu d ev) in
  pointer_distance d 100 50 > IZR (dial_size d) / 2 * (3 / 10)
  /\ angular_distance
       (handle_angle (target p') 0 PI)
       (handle_angle (target p') (alpha p') (beta p'))
     < PI / 12.
Proof.
  apply (press_moves_handle_less_than_15_degrees
           no_context_menu (new_dial 100 100 0) (primary_press 100 50)).
  - reflexivity.
  - reflexivity.
  - reflexivity.
  - destruct press_on_rim_grabs_alpha as [Htarget _].
    cbv zeta in Htarget. rewrite Htarget. discriminate.
Defined.

Lemma release_and_unmap_frame (d : GimpDial) (ev : GdkEventButton) :
  let r := priv (gimp_dial_button_release_event d ev) in
  let u := priv (gimp_dial_unmap d) in
  (b_button ev = 1%Z -> has_grab r = false)
  /\ (b_button ev <> 1%Z -> r = priv d)
  /\ has_grab u = false
  /\ (alpha r = alpha (priv d) /\ beta r = beta (priv d)
      /\ press_angle r = press_angle (priv d) /\ target r = target (priv d))
  /\ (alpha u = alpha (priv d) /\ beta u = beta (priv d)
      /\ press_angle u = press_angle (priv d) /\ target u = target (priv d)).
Proof.
  unfold gimp_dial_button_release_event, gimp_dial_unmap.
  destruct (Z.eqb_spec (b_button ev) 1) as [Hb | Hb];
    destruct (has_grab (priv d)) eqn:Hg; cbn;
    repeat split; intros; try congruence; auto.
Qed.





Lemma motion_keeps_allocation (fl : R -> R) (d : GimpDial)
      (ev : GdkEventMotion) :
  allocation (gimp_dial_motion_notify_event fl d ev) = allocation d.
Proof.
  unfold gimp_dial_motion_notify_event.
  destruct (Req_dec_T _ _); [ reflexivity | ].
  cbn [target set_press_angle]. destruct (target (priv d)); reflexivity.
Qed.

Lemma motion_stores_pointer_angle (fl : R -> R) (d : GimpDial)
      (ev : GdkEventMotion) :
  press_angle (priv (gimp_dial_motion_notify_event fl d ev))
  = fl (pointer_angle d (m_x ev) (m_y ev)).
Proof.
  unfold gimp_dial_motion_notify_event.
  destruct (Req_dec_T _ _); [ reflexivity | ].
  cbn [target set_press_angle]. destruct (target (priv d)); reflexivity.
Qed.

Lemma store_same_press_angle (d : GimpDial) :
  with_priv d (set_press_angle (priv d) (press_angle (priv d))) = d.
Proof. destruct d as [a []]. reflexivity. Qed.

(** X13: delivering the same motion event a second time changes
    nothing, whatever the target, provided narrowing sends 0 to 0: the
    dial turns by where the pointer went since the last event, not by
    where it is. *)
Theorem motion_repeated_is_idle
        (fl : R -> R) (d : GimpDial) (ev : GdkEventMotion) :
  fl 0 = 0 ->
  gimp_dial_motion_notify_event
    fl (gimp_dial_motion_notify_event fl d ev) ev
  = gimp_dial_motion_notify_event fl d ev.
Proof.
  intros Hfl.
  pose proof (motion_keeps_allocation fl d ev) as Halloc.
  pose proof (motion_stores_pointer_angle fl d ev) as Hpress.
  set (d1 := gimp_dial_motion_notify_event fl d ev) in *.
  assert (pointer_angle d1 (m_x ev) (m_y ev)
          = pointer_angle d (m_x ev) (m_y ev)) as Hangle.
  { unfold pointer_angle, center_x, center_y. now rewrite Halloc. }
  unfold gimp_dial_motion_notify_event at 1.
  rewrite Hangle, <- Hpress.
  replace (press_angle (priv d1) - press_angle (priv d1)) with 0 by ring.
  rewrite Hfl.
  destruct (Req_dec_T 0 0) as [_ | Hne]; [ | contradiction ].
  apply store_same_press_angle.
Qed.

Lemma motion_repeated_is_idle_witness :
  gimp_dial_motion_notify_event
    to_binary32
    (gimp_dial_motion_notify_event to_binary32 dial_grabbed_both
                                   (motion_to 0 50))
    (motion_to 0 50)
  = gimp_dial_motion_notify_event to_binary32 dial_grabbed_both
                                  (motion_to 0 50).
Proof.
  apply (motion_repeated_is_idle to_binary32 dial_grabbed_both
                                 (motion_to 0 50)).
  apply to_binary32_0.
Defined.

(** X14: a motion with both handles grabbed keeps each handle where it
    was relative to the pointer, up to one whole turn and the error of
    narrowing delta: alpha minus the stored pointer angle changes by
    2*PI, 0 or -2*PI plus that error, and so does beta.  This holds for
    every narrowing and every pointer position, also when the pointer
    crosses the angle 0. *)
Theorem motion_both_turns_with_pointer
        (fl : R -> R) (d : GimpDial) (ev : GdkEventMotion) :
  target (priv d) = DIAL_TARGET_BOTH ->
  let p := priv d in
  let p' := priv (gimp_dial_motion_notify_event fl d ev) in
  let m := fl (pointer_angle d (m_x ev) (m_y ev)) in
  let narrowing_error :=
    fl (m - press_angle p) - (m - press_angle p) in
  let whole_turn (x : R) := x = 2 * PI \/ x = 0 \/ x = - (2 * PI) in
  press_angle p' = m
  /\ whole_turn ((alpha p' - press_angle p') - (alpha p - press_angle p)
                 - narrowing_error)
  /\ whole_turn ((beta p' - press_angle p') - (beta p - press_angle p)
                 - narrowing_error).
Proof.
  intros Ht p p' m narrowing_error whole_turn.
  destruct (motion_both fl d ev Ht) as [Hzero Hmove].
  pose proof (motion_stores_pointer_angle fl d ev) as Hpress.
  fold p' in Hzero, Hmove, Hpress. fold p in Hzero, Hmove.
  fold m in Hzero, Hmove, Hpress.
  split; [ exact Hpress | ].
  unfold whole_turn, narrowing_error.
  set (delta := fl (m - press_angle p)) in *.
  destruct (Req_dec_T delta 0) as [Hz | Hnz].
  - destruct (Hzero Hz) as [-> ->]. rewrite Hpress.
    split; right; left; lra.
  - destruct (Hmove Hnz) as [-> ->]. rewrite Hpress.
    destruct (angle_mod_2PI_whole_turn (alpha p + delta))
      as [-> | [-> | ->]];
      destruct (angle_mod_2PI_whole_turn (beta p + delta))
      as [-> | [-> | ->]];
      split; lra.
Qed.

Lemma motion_both_turns_with_pointer_witness :
  let p := priv dial_grabbed_both in
  let p' := priv (gimp_dial_motion_notify_event
                    to_binary32 dial_grabbed_both (motion_to 0 50)) in
  let m := to_binary32 (pointer_angle dial_grabbed_both 0 50) in
  let narrowing_error :=
    to_binary32 (m - press_angle p) - (m - press_angle p) in
  let whole_turn (x : R) := x = 2 * PI \/ x = 0 \/ x = - (2 * PI) in
  press_angle p' = m
  /\ whole_turn ((alpha p' - press_angle p') - (alpha p - press_angle p)
                 - narrowing_error)
  /\ whole_turn ((beta p' - press_angle p') - (beta p - press_angle p)
                 - narrowing_error).
Proof.
  apply (motion_both_turns_with_pointer
           to_binary32 dial_grabbed_both (motion_to 0 50)).
  reflexivity.
Defined.

(** ** Sequences of events *)

Lemma deliver_all_invariant
      (trig : GdkEventButton -> bool) (fl : R -> R)
      (P : GimpDial -> Prop) :
  (forall d e, P d -> P (deliver trig fl d e)) ->
  forall es d, P d -> P (deliver_all trig fl d es).
Proof.
  intros Hstep es. unfold deliver_all.
  induction es as [ | e es IH ]; intros d Hd; cbn [fold_left].
  - exact Hd.
  - apply IH. now apply Hstep.
Qed.

Lemma press_cases (trig : GdkEventButton -> bool)
      (d : GimpDial) (ev : GdkEventButton) :
  gimp_dial_button_press_event trig d ev = d
  \/ gimp_dial_button_press_event trig d ev
     = with_priv d (set_press_state (priv d) 0)
  \/ (b_type ev = GDK_BUTTON_PRESS /\ trig ev = false
      /\ b_button ev = 1%Z).
Proof.
  unfold gimp_dial_button_press_event.
  destruct (b_type ev) eqn:Hty; cbn; auto.
  destruct (trig ev) eqn:Htrig; auto.
  destruct (Z.eqb_spec (b_button ev) 1); auto.
Qed.

Lemma deliver_keeps_geometry
      (trig : GdkEventButton -> bool) (fl : R -> R)
      (d : GimpDial) (e : DialEvent) :
  allocation (deliver trig fl d e) = allocation d
  /\ border_width (priv (deliver trig fl d e)) = border_width (priv d)
  /\ clockwise (priv (deliver trig fl d e)) = clockwise (priv d).
Proof.
  destruct e as [ev | ev | ev | ]; cbn [deliver].
  - destruct (press_cases trig d ev) as [-> | [-> | (Hty & Htrig & Hbtn)]];
      [ auto | cbn; auto | ].
    rewrite (press_primary trig d ev Hty Htrig Hbtn). cbv zeta.
    destruct (_ && _); [ | cbn; auto ].
    destruct (closest _ _ _); cbn; auto.
  - unfold gimp_dial_button_release_event.
    destruct (_ =? _)%Z; cbn; auto.
  - unfold gimp_dial_motion_notify_event.
    destruct (Req_dec_T _ _); [ cbn; auto | ].
    cbn [target set_press_angle]. destruct (target (priv d)); cbn; auto.
  - unfold gimp_dial_unmap. destruct (has_grab (priv d)); cbn; auto.
Qed.

(** X15: no sequence of presses, releases, motions and unmaps changes
    the allocation, the border width or the clockwise flag of a dial;
    so the size, the centre and the threshold of the hit test stay
    what they were. *)
Theorem events_keep_geometry
        (trig : GdkEventButton -> bool) (fl : R -> R)
        (es : list DialEvent) (d : GimpDial) :
  let d' := deliver_all trig fl d es in
  allocation d' = allocation d
  /\ border_width (priv d') = border_width (priv d)
  /\ clockwise (priv d') = clockwise (priv d)
  /\ dial_size d' = dial_size d
  /\ center_x d' = center_x d
  /\ center_y d' = center_y d.
Proof.
  cbv zeta.
  assert (allocation (deliver_all trig fl d es) = allocation d
          /\ border_width (priv (deliver_all trig fl d es))
             = border_width (priv d)
          /\ clockwise (priv (deliver_all trig fl d es))
             = clockwise (priv d)) as (Ha & Hb & Hc).
  { apply (deliver_all_invariant trig fl
             (fun x => allocation x = allocation d
                       /\ border_width (priv x) = border_width (priv d)
                       /\ clockwise (priv x) = clockwise (priv d)));
      [ | auto ].
    intros x e (Ha & Hb & Hc).
    destruct (deliver_keeps_geometry trig fl x e) as (Ha' & Hb' & Hc').
    repeat split; congruence. }
  unfold dial_size, center_x, center_y.
  rewrite Ha, Hb, Hc. repeat split; reflexivity.
Qed.

Lemma deliver_keeps_press_angle
      (trig : GdkEventButton -> bool) (fl : R -> R) (F : R)
      (d : GimpDial) (e : DialEvent) :
  2 * PI <= F ->
  gfloat_keeps_within fl F ->
  0 <= press_angle (priv d) <= F ->
  0 <= press_angle (priv (deliver trig fl d e)) <= F.
Proof.
  intros HF [Hfl _] Hp.
  destruct e as [ev | ev | ev | ]; cbn [deliver].
  - pose proof (pointer_angle_normalized d (b_x ev) (b_y ev)) as Hpa.
    unfold normalized in Hpa.
    destruct (press_cases trig d ev) as [-> | [-> | (Hty & Htrig & Hbtn)]];
      [ exact Hp | exact Hp | ].
    rewrite (press_primary trig d ev Hty Htrig Hbtn). cbv zeta.
    destruct (_ && _); [ | cbn; lra ].
    destruct (closest _ _ _); cbn; lra.
  - unfold gimp_dial_button_release_event.
    destruct (_ =? _)%Z; exact Hp.
  - rewrite motion_stores_pointer_angle.
    pose proof (pointer_angle_normalized d (m_x ev) (m_y ev)) as Hm.
    unfold normalized in Hm. apply Hfl. lra.
  - unfold gimp_dial_unmap. destruct (has_grab (priv d)); exact Hp.
Qed.

(** X16: let F, not below 2*PI, be a bound that narrowing to [gfloat]
    keeps (for the C cast, the [gfloat] next above 2*PI).  From a dial
    whose press angle lies within [0, F], every sequence of presses,
    releases, motions and unmaps leads to a dial whose press angle lies
    within [0, F]; so the delta of any motion that follows lies within
    [-F, F], less than one turn and a little. *)
Theorem events_keep_press_angle_in_range
        (trig : GdkEventButton -> bool) (fl : R -> R) (F : R)
        (es : list DialEvent) (d : GimpDial) (mev : GdkEventMotion) :
  2 * PI <= F ->
  gfloat_keeps_within fl F ->
  0 <= press_angle (priv d) <= F ->
  let d' := deliver_all trig fl d es in
  let m := fl (pointer_angle d' (m_x mev) (m_y mev)) in
  0 <= press_angle (priv d') <= F
  /\ - F <= fl (m - press_angle (priv d')) <= F.
Proof.
  intros HF Hfl Hd d' m.
  assert (0 <= press_angle (priv d') <= F) as Hp.
  { apply (deliver_all_invariant
             trig fl (fun x => 0 <= press_angle (priv x) <= F));
      [ | exact Hd ].
    intros x e Hx. now apply deliver_keeps_press_angle. }
  split; [ exact Hp | ].
  destruct Hfl as [Hfl Hfd].
  pose proof (pointer_angle_normalized d' (m_x mev) (m_y mev)) as Hm.
  unfold normalized in Hm.
  assert (0 <= m <= F) as Hm' by (apply Hfl; lra).
  apply Hfd. lra.
Qed.

Lemma events_keep_press_angle_in_range_witness :
  let F := binary32_full_turn in
  let d' := deliver_all no_context_menu to_binary32 (new_dial 100 100 0)
                        [ButtonPress (primary_press 60 50);
                         MotionNotify (motion_to 0 50);
                         ButtonRelease (primary_press 0 50)] in
  let m := to_binary32 (pointer_angle d' 50 0) in
  0 <= press_angle (priv d') <= F
  /\ - F <= to_binary32 (m - press_angle (priv d')) <= F.
Proof.
  apply (events_keep_press_angle_in_range
           no_context_menu to_binary32 binary32_full_turn
           [ButtonPress (primary_press 60 50);
            MotionNotify (motion_to 0 50);
            ButtonRelease (primary_press 0 50)]
           (new_dial 100 100 0) (motion_to 50 0)).
  - apply full_turn_below_binary32.
  - apply to_binary32_keeps_within.
  - simpl; unfold binary32_full_turn; lra.
Defined.





(** ** More on the background pass *)

Lemma MIN_1_range (x : R) : 0 <= x -> 0 <= MIN 1 x <= 1.
Proof. intros Hx. unfold MIN. destruct (Rlt_dec 1 x); lra. Qed.

Lemma hsv_value_range (s : R) :
  0 <= s <= 1 -> 3 / 4 <= 1 - sqrt s / 4 <= 1.
Proof.
  intros [H0 H1].
  pose proof (sqrt_pos s) as Hpos.
  assert (sqrt s <= 1) as Hle.
  { rewrite <- sqrt_1. apply sqrt_le_1; lra. }
  lra.
Qed.

(** X18: whatever colour function is passed, the background pass calls
    it for a pixel (i, j) of the buffer with an angle in [0, 1) and a
    distance in [0, 1] that do not depend on the function; and the HSV
    function asks for a value between 3/4 and 1 at such a distance. *)
Theorem background_arguments_in_range (size stride j i : Z) :
  (0 <= i < size)%Z -> (0 <= j < size)%Z ->
  exists h s : R,
    0 <= h < 1 /\ 0 <= s <= 1
    /\ (forall (bg_func : GimpDialBGFunc) (data : SurfaceData),
           background_pixel size stride bg_func j data i
           = let '(r, g, b) := bg_func h s in
             GIMP_CAIRO_ARGB32_SET_PIXEL
               data (j * stride + i * 4)%Z r g b 255)
    /\ (forall hsv_to_rgb,
           exists v, 3 / 4 <= v <= 1
                     /\ gimp_dial_background_func_hsv hsv_to_rgb h s
                        = hsv_to_rgb h s v).
Proof.
  intros _ _.
  exists (arctg (IZR size / 2 - IZR j) (IZR i - IZR size / 2) / (2 * PI)).
  exists (MIN 1 (sqrt ((SQR (IZR i - IZR size / 2)
                        + SQR (IZR j - IZR size / 2))
                       / SQR (IZR size / 2)))).
  pose proof PI_RGT_0 as Hpi.
  pose proof (arctg_normalized (IZR size / 2 - IZR j) (IZR i - IZR size / 2))
    as [Hlo Hhi].
  assert (0 <= MIN 1 (sqrt ((SQR (IZR i - IZR size / 2)
                             + SQR (IZR j - IZR size / 2))
                            / SQR (IZR size / 2))) <= 1) as Hs
      by (apply MIN_1_range, sqrt_pos).
  split; [ | split; [ exact Hs | split ] ].
  - split.
    + apply Rmult_le_pos; [ exact Hlo | ].
      left. apply Rinv_0_lt_compat. lra.
    + apply (Rmult_lt_reg_r (2 * PI)); [ lra | ].
      unfold Rdiv. rewrite Rmult_assoc, Rinv_l by lra. lra.
  - intros bg_func data. reflexivity.
  - intros hsv_to_rgb. eexists. split; [ | reflexivity ].
    now apply hsv_value_range.
Qed.

Lemma background_arguments_in_range_witness :
  exists h s : R,
    0 <= h < 1 /\ 0 <= s <= 1
    /\ (forall (bg_func : GimpDialBGFunc) (data : SurfaceData),
           background_pixel 2 8 bg_func 1 data 0
           = let '(r, g, b) := bg_func h s in
             GIMP_CAIRO_ARGB32_SET_PIXEL
               data (1 * 8 + 0 * 4)%Z r g b 255)
    /\ (forall hsv_to_rgb,
           exists v, 3 / 4 <= v <= 1
                     /\ gimp_dial_background_func_hsv hsv_to_rgb h s
                        = hsv_to_rgb h s v).
Proof.
  apply (background_arguments_in_range 2 8 1 0); lia.
Defined.

(** X19: the pixel at the centre of an even-sized dial is asked as
    hue 0, saturation 0, value 1; every pixel on or outside the circle
    of radius size/2 is asked with saturation 1 and value 3/4. *)
Theorem background_centre_and_outside
        (hsv_to_rgb : R -> R -> R -> Z * Z * Z) (size stride i j : Z) :
  (0 < size)%Z ->
  let bg_func := gimp_dial_background_func_hsv hsv_to_rgb in
  let radius := IZR size / 2 in
  let hue := arctg (radius - IZR j) (IZR i - radius) / (2 * PI) in
  ((2 * i = size)%Z -> (2 * j = size)%Z ->
   written_pixel size stride bg_func j i
   = let '(r, g, b) := hsv_to_rgb 0 0 1 in mkPixel r g b 255)
  /\ (SQR radius <= SQR (IZR i - radius) + SQR (IZR j - radius) ->
      written_pixel size stride bg_func j i
      = let '(r, g, b) := hsv_to_rgb hue 1 (3 / 4) in mkPixel r g b 255).
Proof.
  intros Hsize bg_func radius hue.
  assert (0 < radius) as Hr.
  { unfold radius. assert (0 < IZR size) by (apply IZR_lt; lia). lra. }
  unfold written_pixel, pixel_offset, background_pixel, bg_func,
    gimp_dial_background_func_hsv, GIMP_CAIRO_ARGB32_SET_PIXEL.
  fold radius. rewrite sqrt_over_square by exact Hr. fold hue.
  split.
  - intros Hi Hj.
    assert (IZR i = radius) as Hi'.
    { unfold radius. rewrite <- Hi, mult_IZR. lra. }
    assert (IZR j = radius) as Hj'.
    { unfold radius. rewrite <- Hj, mult_IZR. lra. }
    unfold hue. rewrite Hi', Hj'.
    replace (radius - radius) with 0 by ring.
    unfold SQR. replace (0 * 0 + 0 * 0) with 0 by ring.
    rewrite sqrt_0.
    assert (arctg 0 0 = 0) as ->.
    { unfold arctg. rewrite atan2_origin.
      destruct (Rlt_dec 0 0); lra. }
    replace (0 / radius) with 0 by (field; lra).
    replace (0 / (2 * PI)) with 0 by (field; apply PI_neq0).
    assert (MIN 1 0 = 0) as -> by (unfold MIN; destruct (Rlt_dec 1 0); lra).
    rewrite sqrt_0. replace (1 - 0 / 4) with 1 by field.
    destruct (hsv_to_rgb 0 0 1) as [[r g] b].
    rewrite Z.eqb_refl. reflexivity.
  - intros Hout.
    set (q := SQR (IZR i - radius) + SQR (IZR j - radius)) in *.
    assert (radius <= sqrt q) as Hsq.
    { rewrite <- (sqrt_square radius) by lra.
      apply sqrt_le_1; unfold SQR in *; nra. }
    assert (1 <= sqrt q / radius) as Hge.
    { apply (Rmult_le_reg_r radius); [ exact Hr | ].
      unfold Rdiv. rewrite Rmult_assoc, Rinv_l by lra. lra. }
    assert (MIN 1 (sqrt q / radius) = 1) as ->
        by (unfold MIN; destruct (Rlt_dec 1 _); lra).
    rewrite sqrt_1. replace (1 - 1 / 4) with (3 / 4) by field.
    destruct (hsv_to_rgb hue 1 (3 / 4)) as [[r g] b].
    rewrite Z.eqb_refl. reflexivity.
Qed.

Lemma background_centre_and_outside_witness :
  let bg_func := gimp_dial_background_func_hsv always_black in
  let hue := arctg (IZR 2 / 2 - IZR 1) (IZR 1 - IZR 2 / 2) / (2 * PI) in
  ((2 * 1 = 2)%Z -> (2 * 1 = 2)%Z ->
   written_pixel 2 8 bg_func 1 1
   = let '(r, g, b) := always_black 0 0 1 in mkPixel r g b 255)
  /\ (SQR (IZR 2 / 2)
      <= SQR (IZR 1 - IZR 2 / 2) + SQR (IZR 1 - IZR 2 / 2) ->
      written_pixel 2 8 bg_func 1 1
      = let '(r, g, b) := always_black hue 1 (3 / 4) in mkPixel r g b 255).
Proof.
  apply (background_centre_and_outside always_black 2 8 1 1). lia.
Defined.

Lemma written_pixel_opaque (size stride : Z) (bg_func : GimpDialBGFunc)
      (j i : Z) :
  px_a (written_pixel size stride bg_func j i) = 255%Z.
Proof.
  unfold written_pixel, pixel_offset, background_pixel,
    GIMP_CAIRO_ARGB32_SET_PIXEL.
  destruct (bg_func _ _) as [[r g] b].
  rewrite Z.eqb_refl. reflexivity.
Qed.

Lemma rows_frame (size stride : Z) (bg_func : GimpDialBGFunc)
      (o : Z) (l : list Z) (data : SurfaceData) :
  (forall j i, In j l -> (0 <= i < size)%Z -> pixel_offset stride j i <> o) ->
  fold_left (background_row size stride bg_func) l data o = data o.
Proof.
  revert data. induction l as [ | j l IH ]; intros data Hfree.
  - reflexivity.
  - cbn [fold_left]. rewrite IH by (intros; apply Hfree; auto; now right).
    unfold background_row. apply row_frame.
    intros i Hi. apply Hfree; [ now left | now apply In_counter ].
Qed.

Lemma row_opaque_or_kept (size stride : Z) (bg_func : GimpDialBGFunc)
      (j o : Z) (l : list Z) (data : SurfaceData) :
  fold_left (background_pixel size stride bg_func j) l data o = data o
  \/ px_a (fold_left (background_pixel size stride bg_func j) l data o)
     = 255%Z.
Proof.
  induction l as [ | x l IH ] using rev_ind.
  - now left.
  - rewrite fold_left_app. cbn [fold_left]. rewrite background_pixel_at.
    destruct (o =? pixel_offset stride j x)%Z; [ right | exact IH ].
    apply written_pixel_opaque.
Qed.

Lemma rows_opaque_or_kept (size stride : Z) (bg_func : GimpDialBGFunc)
      (o : Z) (l : list Z) (data : SurfaceData) :
  fold_left (background_row size stride bg_func) l data o = data o
  \/ px_a (fold_left (background_row size stride bg_func) l data o)
     = 255%Z.
Proof.
  induction l as [ | x l IH ] using rev_ind.
  - now left.
  - rewrite fold_left_app. cbn [fold_left]. unfold background_row at 1 3.
    destruct (row_opaque_or_kept
                size stride bg_func x o (counter size)
                (fold_left (background_row size stride bg_func) l data))
      as [Hkept | Hopaque].
    + rewrite Hkept. exact IH.
    + now right.
Qed.

(** X20: the background pass writes nothing but the pixels of the
    size x size buffer and writes only opaque pixels: a place that is
    the offset of no pixel (i, j) still holds the cleared pixel, every
    place holds the cleared pixel or one with alpha 255, and with a size
    of 0 or less the whole surface stays cleared. *)
Theorem background_writes_only_its_pixels
        (size stride : Z) (bg_func : GimpDialBGFunc) (o : Z) :
  let surface := gimp_dial_draw_background size stride bg_func in
  ((forall j i, (0 <= j < size)%Z -> (0 <= i < size)%Z ->
                pixel_offset stride j i <> o) ->
   surface o = cleared o)
  /\ (surface o = cleared o \/ px_a (surface o) = 255%Z)
  /\ ((size <= 0)%Z -> surface o = cleared o).
Proof.
  cbv zeta. unfold gimp_dial_draw_background.
  split; [ | split ].
  - intros Hfree. apply rows_frame.
    intros j i Hj Hi. apply Hfree; [ now apply In_counter | exact Hi ].
  - apply rows_opaque_or_kept.
  - intros Hsize. apply rows_frame.
    intros j i Hj _. apply In_counter in Hj. lia.
Qed.

(** ** The arrows *)

Lemma Int_part_quotient (a b : Z) :
  (0 < b)%Z -> Int_part (IZR a / IZR b) = (a / b)%Z.
Proof.
  intros Hb. symmetry. apply Int_part_spec.
  pose proof (Z.div_mod a b ltac:(lia)) as Hdm.
  pose proof (Z.mod_pos_bound a b Hb) as [Hm0 Hm1].
  assert (0 < IZR b) as Hb' by (apply IZR_lt; lia).
  assert (IZR a = IZR b * IZR (a / b) + IZR (a mod b)) as Ha.
  { rewrite <- mult_IZR, <- plus_IZR. now f_equal. }
  apply IZR_le in Hm0. apply IZR_lt in Hm1.
  assert (IZR a / IZR b = IZR (a / b) + IZR (a mod b) / IZR b) as ->.
  { rewrite Ha. field. lra. }
  assert (0 <= IZR (a mod b) / IZR b < 1) as [Hq0 Hq1].
  { split.
    - apply Rmult_le_pos; [ lra | ]. left. now apply Rinv_0_lt_compat.
    - apply (Rmult_lt_reg_r (IZR b)); [ lra | ].
      unfold Rdiv. rewrite Rmult_assoc, Rinv_l by lra. lra. }
  lra.
Qed.

Lemma double_to_gint_quotient (a b : Z) :
  (0 <= a)%Z -> (0 < b)%Z -> double_to_gint (IZR a / IZR b) = (a / b)%Z.
Proof.
  intros Ha Hb. unfold double_to_gint.
  destruct (Rle_dec 0 (IZR a / IZR b)) as [_ | Hneg].
  - now apply Int_part_quotient.
  - exfalso. apply Hneg.
    apply Rmult_le_pos; [ now apply IZR_le | ].
    left. apply Rinv_0_lt_compat. apply IZR_lt. lia.
Qed.

Lemma arrows_radius (size : Z) :
  (0 <= size)%Z -> double_to_gint (IZR size / 2) = (size / 2)%Z.
Proof. intros Hs. now apply (double_to_gint_quotient size 2). Qed.

Lemma arrows_dist (radius : Z) :
  (0 <= radius)%Z ->
  double_to_gint (IZR radius * EACH_OR_BOTH) = (3 * radius / 10)%Z.
Proof.
  intros Hr.
  replace (IZR radius * EACH_OR_BOTH) with (IZR (3 * radius) / IZR 10).
  - apply double_to_gint_quotient; lia.
  - rewrite mult_IZR. unfold EACH_OR_BOTH. field.
Qed.

(** X21: for a size that is not negative the arrows are drawn on whole
    pixels: their centre (size / 2 rounded down, twice) is the centre
    of the background disc or half a pixel up and left of it, and the
    arc between the handles, drawn around that centre from -alpha to
    -beta (as a negative arc unless the dial is clockwise), has a radius
    that is never larger than the threshold of the hit test and less
    than 23/20 of a pixel smaller. *)
Theorem arrows_arc_and_hit_threshold
        (ROUND : R -> Z) (size : Z) (alpha beta : R) (clockwise : bool) :
  (0 <= size)%Z ->
  let radius := (size / 2)%Z in
  let dist := (3 * radius / 10)%Z in
  let threshold := IZR size / 2 * EACH_OR_BOTH in
  In (if clockwise
      then cairo_arc (IZR radius) (IZR radius) (IZR dist) (- alpha) (- beta)
      else cairo_arc_negative
             (IZR radius) (IZR radius) (IZR dist) (- alpha) (- beta))
     (gimp_dial_draw_arrows ROUND size alpha beta clockwise)
  /\ (IZR size / 2 = IZR radius \/ IZR size / 2 = IZR radius + 1 / 2)
  /\ IZR dist <= threshold < IZR dist + 23 / 20.
Proof.
  intros Hsize radius dist threshold.
  assert (0 <= radius)%Z as Hr by (apply Z.div_pos; lia).
  pose proof (Z.div_mod size 2 ltac:(lia)) as Hdm.
  pose proof (Z.mod_pos_bound size 2 ltac:(lia)) as Hm.
  pose proof (Z.div_mod (3 * radius) 10 ltac:(lia)) as Hdm'.
  pose proof (Z.mod_pos_bound (3 * radius) 10 ltac:(lia)) as Hm'.
  fold radius in Hdm. fold dist in Hdm'.
  assert (IZR size = 2 * IZR radius + IZR (size mod 2)) as Hs'.
  { rewrite <- mult_IZR, <- plus_IZR. now f_equal. }
  assert (3 * IZR radius = 10 * IZR dist + IZR ((3 * radius) mod 10)) as Hd'.
  { rewrite <- !mult_IZR, <- plus_IZR. now f_equal. }
  assert (IZR (size mod 2) = 0 \/ IZR (size mod 2) = 1) as Hbit.
  { assert (size mod 2 = 0 \/ size mod 2 = 1)%Z as [-> | ->] by lia; auto. }
  assert (0 <= IZR ((3 * radius) mod 10) <= 9) as Hrem.
  { split; [ apply IZR_le | apply IZR_le ]; lia. }
  split; [ | split ].
  - unfold gimp_dial_draw_arrows.
    rewrite (arrows_radius size Hsize). fold radius.
    rewrite (arrows_dist radius Hr). fold dist.
    destruct clockwise; cbn [negb In]; do 15 right; now left.
  - destruct Hbit as [Hb | Hb]; [ left | right ]; lra.
  - unfold threshold, EACH_OR_BOTH. destruct Hbit; lra.
Qed.

Lemma arrows_arc_and_hit_threshold_witness :
  let threshold := IZR 97 / 2 * EACH_OR_BOTH in
  In (cairo_arc_negative (IZR (97 / 2)) (IZR (97 / 2))
                         (IZR (3 * (97 / 2) / 10)) (- 0) (- PI))
     (gimp_dial_draw_arrows round_half_up 97 0 PI false)
  /\ (IZR 97 / 2 = IZR (97 / 2) \/ IZR 97 / 2 = IZR (97 / 2) + 1 / 2)
  /\ IZR (3 * (97 / 2) / 10) <= threshold < IZR (3 * (97 / 2) / 10) + 23 / 20.
Proof.
  apply (arrows_arc_and_hit_threshold round_half_up 97 0 PI false). lia.
Defined.

(** X22: every stroke of the arrows starts at the centre, on the circle
    of the arrows' radius around it (the tips), or on the circle of the
    arc's radius (the tick); and every stroke ends on whole pixel
    coordinates. *)
Theorem arrows_strokes_start_and_end
        (ROUND : R -> Z) (size : Z) (alpha beta : R) (clockwise : bool)
        (x y : R) :
  let radius := IZR (double_to_gint (IZR size / 2)) in
  let dist := IZR (double_to_gint (radius * EACH_OR_BOTH)) in
  let path := gimp_dial_draw_arrows ROUND size alpha beta clockwise in
  (In (cairo_move_to x y) path ->
   let square := (x - radius) * (x - radius) + (y - radius) * (y - radius) in
   square = 0 \/ square = radius * radius \/ square = dist * dist)
  /\ (In (cairo_line_to x y) path ->
      exists zx zy : Z, x = IZR zx /\ y = IZR zy).
Proof.
  intros radius dist path.
  pose proof (sin2_cos2 alpha) as Halpha.
  pose proof (sin2_cos2 beta) as Hbeta.
  unfold Rsqr in Halpha, Hbeta.
  subst path. unfold gimp_dial_draw_arrows. fold radius. fold dist.
  split; intros Hin; cbv zeta; destruct clockwise; cbn [negb In] in Hin;
    repeat (destruct Hin as [Hin | Hin];
            [ try discriminate Hin; injection Hin as <- <-;
              first [ left; nra | right; left; nra | right; right; nra
                    | eexists; eexists; split; reflexivity ]
            | ]);
    destruct Hin.
Qed.

(** X23: the tick at beta starts on the beta ray at the arc's radius and
    is drawn, before rounding, at a right angle to that ray and [TICK]
    pixels long; the clockwise flag turns it the other way round. *)
Theorem arrows_tick_is_perpendicular
        (ROUND : R -> Z) (size : Z) (alpha beta : R) (clockwise : bool) :
  let radius := IZR (double_to_gint (IZR size / 2)) in
  let dist := IZR (double_to_gint (radius * EACH_OR_BOTH)) in
  let direction := if clockwise then -1 else 1 in
  let start_x := radius + dist * cos beta in
  let start_y := radius - dist * sin beta in
  let tick_x := direction * IZR TICK * sin beta in
  let tick_y := direction * IZR TICK * cos beta in
  let path := gimp_dial_draw_arrows ROUND size alpha beta clockwise in
  In (cairo_move_to start_x start_y) path
  /\ In (cairo_line_to (IZR (ROUND (start_x + tick_x)))
                       (IZR (ROUND (start_y + tick_y)))) path
  /\ tick_x * (start_x - radius) + tick_y * (start_y - radius) = 0
  /\ tick_x * tick_x + tick_y * tick_y = IZR TICK * IZR TICK.
Proof.
  intros radius dist direction start_x start_y tick_x tick_y path.
  pose proof (sin2_cos2 beta) as Hbeta. unfold Rsqr in Hbeta.
  assert (direction * direction = 1) as Hdir
      by (unfold direction; destruct clockwise; lra).
  split; [ | split; [ | split ] ].
  - subst path. unfold gimp_dial_draw_arrows. fold radius. fold dist.
    cbn [In]. do 12 right. now left.
  - subst path. unfold gimp_dial_draw_arrows. fold radius. fold dist.
    cbn [In]. do 13 right. left.
    unfold start_x, start_y, tick_x, tick_y, direction.
    destruct clockwise; cbn [Z.mul]; repeat f_equal;
      unfold TICK; rewrite ?mult_IZR; cbn; lra.
  - unfold tick_x, tick_y, start_x, start_y. ring.
  - unfold tick_x, tick_y.
    replace (direction * IZR TICK * sin beta * (direction * IZR TICK * sin beta)
             + direction * IZR TICK * cos beta
               * (direction * IZR TICK * cos beta))
      with (direction * direction * (IZR TICK * IZR TICK)
            * (sin beta * sin beta + cos beta * cos beta)) by ring.
    rewrite Hdir, Hbeta. ring.
Qed.

(** ** The grab *)

Lemma deliver_keeps_no_grab
      (trig : GdkEventButton -> bool) (fl : R -> R)
      (d : GimpDial) (e : DialEvent) :
  is_primary_press trig e = false ->
  has_grab (priv d) = false ->
  has_grab (priv (deliver trig fl d e)) = false.
Proof.
  intros He Hd.
  destruct e as [ev | ev | ev | ]; cbn [deliver].
  - destruct (press_cases trig d ev) as [-> | [-> | (Hty & Htrig & Hbtn)]];
      [ exact Hd | exact Hd | ].
    cbn [is_primary_press] in He. rewrite Hty, Htrig, Hbtn in He.
    discriminate He.
  - unfold gimp_dial_button_release_event.
    destruct (_ =? _)%Z; [ reflexivity | exact Hd ].
  - unfold gimp_dial_motion_notify_event.
    destruct (Req_dec_T _ _); [ exact Hd | ].
    cbn [target set_press_angle]. destruct (target (priv d)); exact Hd.
  - unfold gimp_dial_unmap. rewrite Hd. exact Hd.
Qed.

Lemma deliver_all_last
      (trig : GdkEventButton -> bool) (fl : R -> R)
      (d : GimpDial) (es : list DialEvent) (e : DialEvent) :
  deliver_all trig fl d (es ++ [e])
  = deliver trig fl (deliver_all trig fl d es) e.
Proof. unfold deliver_all. now rewrite fold_left_app. Qed.

(** X11: only a primary-button press takes the grab: a dial without the
    grab is without it after any sequence of events that contains no
    such press.  After any sequence of events, a primary-button press
    leaves the dial with the grab, and a release of button 1 or an unmap
    leaves it without. *)
Theorem grab_taken_and_dropped
        (trig : GdkEventButton -> bool) (fl : R -> R)
        (d : GimpDial) (es : list DialEvent) (ev : GdkEventButton) :
  let after e := priv (deliver_all trig fl d (es ++ [e])) in
  (has_grab (priv d) = false ->
   forallb (fun e => negb (is_primary_press trig e)) es = true ->
   has_grab (priv (deliver_all trig fl d es)) = false)
  /\ (is_primary_press trig (ButtonPress ev) = true ->
      has_grab (after (ButtonPress ev)) = true)
  /\ (b_button ev = 1%Z -> has_grab (after (ButtonRelease ev)) = false)
  /\ has_grab (after Unmap) = false.
Proof.
  cbv beta zeta. rewrite !deliver_all_last.
  set (d' := deliver_all trig fl d es).
  split; [ | split; [ | split ] ].
  - subst d'. revert d. unfold deliver_all.
    induction es as [ | e es IH ]; intros d Hd Hes; cbn [fold_left].
    + exact Hd.
    + cbn [forallb] in Hes. apply andb_prop in Hes as [He Hes].
      apply IH; [ | exact Hes ].
      apply deliver_keeps_no_grab; [ | exact Hd ].
      now destruct (is_primary_press trig e).
  - cbn [is_primary_press deliver]. intros Hp.
    apply andb_prop in Hp as [Hp Hbtn]. apply andb_prop in Hp as [Hty Htrig].
    assert (b_type ev = GDK_BUTTON_PRESS) as Hty'
        by (destruct (b_type ev); try discriminate; reflexivity).
    assert (trig ev = false) as Htrig'
        by (destruct (trig ev); try discriminate; reflexivity).
    apply Z.eqb_eq in Hbtn.
    rewrite (press_primary trig d' ev Hty' Htrig' Hbtn). cbv zeta.
    destruct (_ && _); [ | reflexivity ].
    destruct (closest _ _ _); reflexivity.
  - intros Hbtn. cbn [deliver]. unfold gimp_dial_button_release_event.
    rewrite Hbtn. reflexivity.
  - cbn [deliver]. unfold gimp_dial_unmap.
    destruct (has_grab (priv d')) eqn:Hg; [ reflexivity | exact Hg ].
Qed.
